(** * idencoder-go: the encoder/decoder engine, embedded and verified

    The development follows [idencoder/idencoder.go] (package [idencoder],
    the second unit of [src/main.go]) and its older stand-alone variant
    ([src/idencoder.go], package [main]).  The functions [checksum],
    [scramble], [enbase], [debase], [times] and [leftPad] are textually the
    same in both; only the polarity of the boolean returned by [Encode] and
    [Decode] differs.

    Go values are modelled as follows.
    - [uint64] is a [Z] in [0, 2^64); every arithmetic result is wrapped
      with [u64]; shifts follow Go (a count of 64 or more gives 0).
    - [byte] is [Byte.byte]; a [string] and a [[]byte] are [list byte].
    - A run-time panic is an explicit [Panic] outcome; a loop that does not
      terminate is [Diverge] (reached by exhausting the fuel of the one
      loop that can spin, see [enbase_loop]). *)

From Stdlib Require Import ZArith List Lia Bool.
From Stdlib Require Import Strings.Byte Strings.String.
Import ListNotations.

Local Open Scope Z_scope.

(** ** Outcomes of a Go call *)

Inductive panic : Type :=
| IndexOutOfRange   (* a[k] with k >= len(a) *)
| DivideByZero      (* x % 0, x / 0 *)
| SliceBounds       (* b[1:] with len(b) = 0 *)
| MakesliceLen.     (* make([]byte, n) with n out of range *)

Inductive outcome (A : Type) : Type :=
| Return (a : A)
| Panic (p : panic)
| Diverge.

Arguments Return {A} a.
Arguments Panic {A} p.
Arguments Diverge {A}.

Definition bind {A B : Type} (m : outcome A) (k : A -> outcome B) : outcome B :=
  match m with
  | Return a => k a
  | Panic p => Panic p
  | Diverge => Diverge
  end.

Notation "x <- m ;; k" := (bind m (fun x => k))
  (at level 61, m at next level, right associativity).

Definition returns {A : Type} (m : outcome A) : Prop := exists a, m = Return a.

(** ** 64-bit unsigned arithmetic *)

Definition u64 (z : Z) : Z := z mod 2 ^ 64.

(** [a << s] on [uint64]: bits shifted out are lost, and a count of 64 or
    more yields 0. *)
Definition shl64 (a s : Z) : Z :=
  if s <? 64 then u64 (Z.shiftl a s) else 0.

(** [^a] on [uint64]. *)
Definition not64 (a : Z) : Z := u64 (Z.lnot a).

(** Largest value of Go's [int] on a 64-bit platform.  [make([]byte, n)]
    with a [uint64] length goes through [runtime.makeslice64], which panics
    when [n] does not fit [int].  Running out of memory below that bound is
    outside the model. *)
Definition maxInt : Z := 2 ^ 63 - 1.

Definition in_u64 (z : Z) : Prop := 0 <= z < 2 ^ 64.

(** ** Bytes and strings *)

Definition byte_val (c : byte) : Z := Z.of_N (Byte.to_N c).

Definition byte_of_Z (z : Z) : byte :=
  match Byte.of_N (Z.to_N z) with
  | Some c => c
  | None => x00
  end.

(** [string(c)] for a [byte] [c]: Go converts an integer to the UTF-8
    encoding of the code point with that value, so a byte of 0x80 or more
    becomes two bytes. *)
Definition string_of_byte (c : byte) : list byte :=
  let v := byte_val c in
  if v <? 128 then [c]
  else [byte_of_Z (Z.lor 192 (Z.shiftr v 6)); byte_of_Z (Z.lor 128 (Z.land v 63))].

(** [bytes.IndexByte(s, c)]: index of the first [c] in [s], or -1. *)
Fixpoint IndexByte (s : list byte) (c : byte) : Z :=
  match s with
  | [] => -1
  | b :: s' =>
      if Byte.eqb b c then 0
      else let r := IndexByte s' c in if r <? 0 then -1 else r + 1
  end.

(** [a[k]] for an unsigned [k]. *)
Definition index (a : list byte) (k : Z) : outcome byte :=
  match nth_error a (Z.to_nat k) with
  | Some c => Return c
  | None => Panic IndexOutOfRange
  end.

Definition len (s : list byte) : Z := Z.of_nat (List.length s).

(** ** The encoder *)

Record IDEncoder : Type := {
  Alphabet : list byte;
  BlockSize : Z;
  Checksum : Z
}.

Definition DefaultAlphabet : list byte :=
  list_byte_of_string "3fq4rv5z7hsdamn8bpygw96j2cetxuk".
Definition DefaultBlockSize : Z := 24.
Definition DefaultChecksum : Z := 29.
Definition MinLength : Z := 5.

Definition default : IDEncoder :=
  {| Alphabet := DefaultAlphabet;
     BlockSize := DefaultBlockSize;
     Checksum := DefaultChecksum |}.

(** [i.Alphabet[n % uint64(i.Checksum)]] *)
Definition checksum (i : IDEncoder) (n : Z) : outcome byte :=
  if Checksum i =? 0 then Panic DivideByZero
  else index (Alphabet i) (n mod Checksum i).

(** The body of [scramble]'s loop, run [k] times from [bit]. *)
Fixpoint scramble_loop (B n : Z) (k : nat) (bit result : Z) : Z :=
  match k with
  | O => result
  | S k' =>
      let result' :=
        if Z.land n (shl64 1 bit) =? 0 then result
        else Z.lor result (shl64 1 (u64 (u64 (B - bit) - 1))) in
      scramble_loop B n k' (bit + 1) result'
  end.

(** [for bit := 0; bit < B; bit++] runs [B] times. *)
Definition scramble (i : IDEncoder) (n : Z) : Z :=
  let B := BlockSize i in
  let mask := u64 (shl64 1 B - 1) in
  let result := Z.land n (not64 mask) in
  scramble_loop B n (Z.to_nat B) 0 result.

(** [make([]byte, n)] followed by the fill loop. *)
Definition times (c : byte) (n : Z) : outcome (list byte) :=
  if n >? maxInt then Panic MakesliceLen
  else Return (repeat c (Z.to_nat n)).

(** [fmt.Sprintf("%v%v", a, b)] on two strings is their concatenation. *)
Definition leftPad (str : list byte) (length : Z) (pad : byte) : outcome (list byte) :=
  p <- times pad (u64 (length - len str)) ;;
  Return (p ++ str).

(** The loop of [enbase].  With an alphabet of one symbol [x] never
    decreases and the loop spins: that is the only way to use up the fuel
    (see [enbase_loop_fuel] and [enbase_loop_spins]). *)
Fixpoint enbase_loop (fuel : nat) (alphabet : list byte) (n x : Z)
    (chars : list byte) : outcome (list byte) :=
  if x >? 0 then
    match fuel with
    | O => Diverge
    | S fuel' =>
        if n =? 0 then Panic DivideByZero
        else
          let c := x mod n in
          let x' := x / n in
          d <- index alphabet c ;;
          enbase_loop fuel' alphabet n x' (d :: chars)
    end
  else Return chars.

(** The digits of [x] before padding. *)
Definition natural (i : IDEncoder) (x : Z) : outcome (list byte) :=
  enbase_loop 64 (Alphabet i) (len (Alphabet i)) x [].

Definition enbase (i : IDEncoder) (x minLength : Z) : outcome (list byte) :=
  chars <- natural i x ;;
  pad <- index (Alphabet i) 0 ;;
  leftPad chars minLength pad.

(** One round of [debase]'s loop: [result *= n; result += uint64(IndexByte)]. *)
Definition debase_step (alphabet : list byte) (result : Z) (val : byte) : Z :=
  let n := len alphabet in
  u64 (u64 (result * n) + u64 (IndexByte alphabet val)).

Definition debase (i : IDEncoder) (x : list byte) : Z :=
  fold_left (debase_step (Alphabet i)) x 0.

(** [Encode] of package [idencoder]: the boolean is [ok]. *)
Definition Encode (i : IDEncoder) (n minLength : Z) : outcome (list byte * bool) :=
  c <- checksum i n ;;
  body <- enbase i (scramble i n) minLength ;;
  Return (string_of_byte c ++ body, true).

(** [Decode] of package [idencoder]: the boolean is [ok]. *)
Definition Decode (i : IDEncoder) (s : list byte) : outcome (Z * bool) :=
  match s with
  | [] => Panic SliceBounds
  | b0 :: tl =>
      let value := scramble i (debase i tl) in
      c <- checksum i value ;;
      Return (value, Byte.eqb c b0)
  end.

(** The stand-alone variant ([src/idencoder.go]): same helpers, but the
    boolean is [err]. *)
Module Standalone.

Definition Encode (i : IDEncoder) (n minLength : Z) : outcome (list byte * bool) :=
  c <- checksum i n ;;
  body <- enbase i (scramble i n) minLength ;;
  Return (string_of_byte c ++ body, false).

Definition Decode (i : IDEncoder) (s : list byte) : outcome (Z * bool) :=
  match s with
  | [] => Panic SliceBounds
  | b0 :: tl =>
      let value := scramble i (debase i tl) in
      c <- checksum i value ;;
      Return (value, negb (Byte.eqb c b0))
  end.

End Standalone.

(** ** Valid configurations *)

Fixpoint memb (c : byte) (s : list byte) : bool :=
  match s with
  | [] => false
  | b :: s' => Byte.eqb b c || memb c s'
  end.

Fixpoint nodupb (s : list byte) : bool :=
  match s with
  | [] => true
  | b :: s' => negb (memb b s') && nodupb s'
  end.

(** Duplicate-free alphabet of K >= 2 symbols, 0 < M <= K, B < 64. *)
Definition validb (i : IDEncoder) : bool :=
  nodupb (Alphabet i)
  && (2 <=? len (Alphabet i))
  && (0 <? Checksum i) && (Checksum i <=? len (Alphabet i))
  && (0 <=? BlockSize i) && (BlockSize i <? 64).

Definition valid (i : IDEncoder) : Prop := validb i = true.

(** ** Notions used in the statements *)

(** The value of a digit string in unbounded arithmetic, continuing from
    [acc]; a byte outside the alphabet counts as -1, as in [debase]. *)
Definition posval (a : list byte) (acc : Z) (s : list byte) : Z :=
  fold_left (fun r c => r * len a + IndexByte a c) s acc.

(** Length of the unpadded digit string of [x]. *)
Definition natural_len (i : IDEncoder) (x : Z) : Z :=
  match natural i x with
  | Return ds => len ds
  | _ => 0
  end.

(** The digits fit into [minLength] and the padding can be allocated. *)
Definition fits (i : IDEncoder) (x minLength : Z) : bool :=
  (natural_len i x <=? minLength) && (minLength - natural_len i x <=? maxInt).

(** The checksum symbol is plain ASCII, so that [string(c)] is [c] itself. *)
Definition ascii_head (i : IDEncoder) (n : Z) : Prop :=
  forall c, checksum i n = Return c -> byte_val c < 128.

(** The configuration of the usage sample in the README. *)
Definition readme : IDEncoder :=
  {| Alphabet := list_byte_of_string "tvy7fuk4g59d6b3mhc8jqwrzexspan2";
     BlockSize := DefaultBlockSize;
     Checksum := DefaultChecksum |}.

(** One pass of the README's loop body: encode, decode, compare. *)
Definition roundtrip_ok (i : IDEncoder) (minLength n : Z) : bool :=
  match Encode i n minLength with
  | Return (s, true) =>
      match Decode i s with
      | Return (v, true) => v =? n
      | _ => false
      end
  | _ => false
  end.

(** A three-symbol alphabet whose middle symbol is the byte 0xE9. *)
Definition latin1 : IDEncoder :=
  {| Alphabet := [x61; xe9; x62]; BlockSize := 0; Checksum := 3 |}.

(** ** The benchmark of the command line

    The [benchmark] case of [main] ([src/main.go], lines 93-105) runs
    [Encode] and [Decode] on 0, 1, ..., and leaves the loop with the line
    "Something is weird" at the first number that does not come back with
    [ok].  The loop is modelled with what it computes; the clock and the
    final timing line are left out. *)

Inductive bench : Type :=
| Finished
| Weird (i : Z) (encoded : list byte) (decoded : Z).

Fixpoint benchmark_loop (ie : IDEncoder) (k : nat) (i : Z) : outcome bench :=
  match k with
  | O => Return Finished
  | S k' =>
      e <- Encode ie i MinLength ;;
      d <- Decode ie (fst e) ;;
      if negb (snd d) || negb (i =? fst d)
      then Return (Weird i (fst e) (fst d))
      else benchmark_loop ie k' (i + 1)
  end.

(** The loop runs for [i] from 0 up to the count given on the command
    line, converted to [uint64]. *)
Definition benchmark (ie : IDEncoder) (count : Z) : outcome bench :=
  benchmark_loop ie (Z.to_nat count) 0.

(** ** The cases of [main]

    [main] ([src/main.go], lines 75-115) builds the encoder from the
    alphabet on the command line with the default block size and modulus
    and takes the first case of its [switch] that holds.  The values are
    the parsed flags ([int] for the numbers); what the cases print is left
    out, the call each one makes is kept. *)

Record flags : Type := {
  f_alphabet : list byte;
  f_length : Z;
  f_encode : Z;
  f_decode : list byte;
  f_benchmark : Z;
  f_random : bool
}.

Inductive action : Type :=
| RunEncode (r : outcome (list byte * bool))
| RunDecode (r : outcome (Z * bool))
| RunBenchmark (r : outcome bench)
| RunRandom
| Usage.

Definition cli_encoder (f : flags) : IDEncoder :=
  {| Alphabet := f_alphabet f;
     BlockSize := DefaultBlockSize;
     Checksum := DefaultChecksum |}.

(** [uint64(x)] on an [int] keeps the bits, hence [u64]. *)
Definition dispatch (f : flags) : action :=
  let ie := cli_encoder f in
  if f_encode f >? 0 then
    RunEncode (Encode ie (u64 (f_encode f)) (u64 (f_length f)))
  else if len (f_decode f) >=? f_length f then
    RunDecode (Decode ie (f_decode f))
  else if f_benchmark f >? 0 then
    RunBenchmark (benchmark ie (u64 (f_benchmark f)))
  else if f_random f then RunRandom
  else Usage.

(** Every alphabet symbol is plain ASCII. *)
Definition ascii_alphabet (i : IDEncoder) : Prop :=
  forallb (fun c => byte_val c <? 128) (Alphabet i) = true.

(** * Proofs *)

(** ** Wrap-around arithmetic *)

Lemma u64_small z : in_u64 z -> u64 z = z.
Proof. unfold in_u64, u64. intros H. now apply Z.mod_small. Qed.

Lemma u64_range z : in_u64 (u64 z).
Proof. unfold in_u64, u64. apply Z.mod_pos_bound. lia. Qed.

Lemma shl64_one s : 0 <= s < 64 -> shl64 1 s = 2 ^ s.
Proof.
  intros Hs. unfold shl64.
  destruct (Z.ltb_spec s 64) as [_|]; [|lia].
  rewrite Z.shiftl_1_l. apply u64_small. unfold in_u64. split.
  - apply Z.pow_nonneg. lia.
  - apply Z.pow_lt_mono_r; lia.
Qed.

Lemma high_bits_zero n j : in_u64 n -> 64 <= j -> Z.testbit n j = false.
Proof.
  intros Hn Hj. rewrite <- (u64_small n Hn). unfold u64.
  apply Z.mod_pow2_bits_high. lia.
Qed.

Lemma in_u64_of_bits z :
  0 <= z -> (forall j, 64 <= j -> Z.testbit z j = false) -> in_u64 z.
Proof.
  intros Hz Hb.
  assert (E : z = u64 z).
  { apply Z.bits_inj'. intros j Hj. unfold u64.
    rewrite Z.testbit_mod_pow2 by lia.
    destruct (Z.ltb_spec j 64); simpl; [reflexivity|]. now apply Hb. }
  rewrite E. apply u64_range.
Qed.

Lemma land_pow2 n b :
  0 <= b -> Z.land n (2 ^ b) = if Z.testbit n b then 2 ^ b else 0.
Proof.
  intros Hb. apply Z.bits_inj'. intros j Hj.
  rewrite Z.land_spec, Z.pow2_bits_eqb by assumption.
  destruct (Z.eqb_spec b j) as [->|Hne].
  - destruct (Z.testbit n j); simpl.
    + rewrite Z.pow2_bits_eqb, Z.eqb_refl by assumption. reflexivity.
    + now rewrite Z.bits_0.
  - rewrite andb_false_r.
    destruct (Z.testbit n b).
    + rewrite Z.pow2_bits_eqb by assumption.
      symmetry. now apply Z.eqb_neq.
    + now rewrite Z.bits_0.
Qed.

Lemma land_pow2_eqb n b :
  0 <= b -> (Z.land n (2 ^ b) =? 0) = negb (Z.testbit n b).
Proof.
  intros Hb. rewrite land_pow2 by assumption.
  destruct (Z.testbit n b); simpl.
  - apply Z.eqb_neq. apply Z.pow_nonzero; lia.
  - reflexivity.
Qed.

(** The mask of [scramble] covers exactly the low [B] bits. *)
Lemma mask_ones B : 0 <= B <= 64 -> u64 (shl64 1 B - 1) = Z.ones B.
Proof.
  intros HB. rewrite Z.ones_equiv.
  destruct (Z.eq_dec B 64) as [->|Hne].
  - reflexivity.
  - rewrite shl64_one by lia. apply u64_small. unfold in_u64.
    assert (0 < 2 ^ B) by (apply Z.pow_pos_nonneg; lia).
    assert (2 ^ B < 2 ^ 64) by (apply Z.pow_lt_mono_r; lia).
    lia.
Qed.

Lemma not64_ones_bits B j :
  0 <= B -> 0 <= j ->
  Z.testbit (not64 (Z.ones B)) j = (j <? 64) && negb (j <? B).
Proof.
  intros HB Hj. unfold not64, u64.
  rewrite Z.testbit_mod_pow2 by lia.
  rewrite Z.lnot_spec, Z.testbit_ones by assumption.
  destruct (Z.leb_spec 0 j); [reflexivity|lia].
Qed.

(** ** The scrambler *)

Lemma scramble_loop_nonneg B n k : forall bit result,
  0 <= result -> 0 <= scramble_loop B n k bit result.
Proof.
  induction k as [|k IH]; intros bit result Hr; simpl; [assumption|].
  apply IH.
  destruct (Z.land n (shl64 1 bit) =? 0); [assumption|].
  apply Z.lor_nonneg. split; [assumption|].
  unfold shl64. destruct (_ <? 64); [apply u64_range|lia].
Qed.

(** After the loop has handled the positions from [bit] up to [B], bit [j]
    of the result is set if it was set before or if it mirrors a set bit of
    [n] among those positions. *)
Lemma scramble_loop_bits B n k : forall bit result j,
  0 <= B <= 64 -> 0 <= bit -> bit + Z.of_nat k = B -> 0 <= j ->
  Z.testbit (scramble_loop B n k bit result) j =
  Z.testbit result j || ((bit <=? B - 1 - j) && Z.testbit n (B - 1 - j)).
Proof.
  induction k as [|k IH]; intros bit result j HB Hbit Hk Hj.
  - simpl. destruct (Z.leb_spec bit (B - 1 - j)); [lia|].
    now rewrite orb_false_r.
  - cbn [scramble_loop].
    rewrite IH by lia.
    rewrite (u64_small (B - bit)) by (unfold in_u64; lia).
    rewrite (u64_small (B - bit - 1)) by (unfold in_u64; lia).
    rewrite !shl64_one by lia.
    rewrite land_pow2_eqb by assumption.
    destruct (Z.eq_dec bit (B - 1 - j)) as [E|E].
    + replace (B - 1 - j) with bit by lia.
      destruct (Z.leb_spec (bit + 1) bit); [lia|].
      destruct (Z.leb_spec bit bit); [|lia].
      destruct (Z.testbit n bit); simpl.
      * rewrite Z.lor_spec, Z.pow2_bits_eqb by lia.
        replace (B - bit - 1) with j by lia.
        rewrite Z.eqb_refl. now rewrite !orb_true_r.
      * reflexivity.
    + assert (Hc : (bit + 1 <=? B - 1 - j) = (bit <=? B - 1 - j)).
      { destruct (Z.leb_spec (bit + 1) (B - 1 - j)), (Z.leb_spec bit (B - 1 - j));
          try reflexivity; lia. }
      rewrite Hc.
      destruct (Z.testbit n bit); simpl; [|reflexivity].
      rewrite Z.lor_spec, Z.pow2_bits_eqb by lia.
      destruct (Z.eqb_spec (B - bit - 1) j); [lia|].
      now rewrite orb_false_r.
Qed.

Lemma scramble_bits i n j :
  in_u64 n -> 0 <= BlockSize i <= 64 -> 0 <= j ->
  Z.testbit (scramble i n) j =
  if j <? BlockSize i then Z.testbit n (BlockSize i - j - 1) else Z.testbit n j.
Proof.
  intros Hn HB Hj. unfold scramble.
  rewrite scramble_loop_bits by lia.
  rewrite mask_ones, Z.land_spec, not64_ones_bits by lia.
  replace (BlockSize i - 1 - j) with (BlockSize i - j - 1) by lia.
  destruct (Z.ltb_spec j (BlockSize i)) as [Hlt|Hge].
  - rewrite andb_false_r, andb_false_r. simpl.
    destruct (Z.leb_spec 0 (BlockSize i - j - 1)); [reflexivity|lia].
  - destruct (Z.leb_spec 0 (BlockSize i - j - 1)); [lia|].
    simpl. rewrite orb_false_r, andb_true_r.
    destruct (Z.ltb_spec j 64); simpl.
    + now rewrite andb_true_r.
    + rewrite andb_false_r. symmetry. now apply high_bits_zero.
Qed.

Lemma scramble_range i n :
  in_u64 n -> 0 <= BlockSize i <= 64 -> in_u64 (scramble i n).
Proof.
  intros Hn HB. apply in_u64_of_bits.
  - unfold scramble. apply scramble_loop_nonneg.
    apply Z.land_nonneg. left. apply Hn.
  - intros j Hj. rewrite scramble_bits by (assumption || lia).
    destruct (Z.ltb_spec j (BlockSize i)); [lia|].
    now apply high_bits_zero.
Qed.

Lemma scramble_involutive i n :
  in_u64 n -> 0 <= BlockSize i <= 64 -> scramble i (scramble i n) = n.
Proof.
  intros Hn HB. apply Z.bits_inj'. intros j Hj.
  rewrite scramble_bits by (try apply scramble_range; assumption).
  destruct (Z.ltb_spec j (BlockSize i)) as [Hlt|Hge].
  - rewrite scramble_bits by (assumption || lia).
    destruct (Z.ltb_spec (BlockSize i - j - 1) (BlockSize i)); [|lia].
    f_equal. lia.
  - rewrite scramble_bits by assumption.
    destruct (Z.ltb_spec j (BlockSize i)); [lia|reflexivity].
Qed.

Lemma scramble_injective i a b :
  in_u64 a -> in_u64 b -> 0 <= BlockSize i <= 64 ->
  scramble i a = scramble i b -> a = b.
Proof.
  intros Ha Hb HB E.
  rewrite <- (scramble_involutive i a), <- (scramble_involutive i b) by assumption.
  now rewrite E.
Qed.

(** ** Alphabets *)

Lemma byte_eqb_refl c : Byte.eqb c c = true.
Proof. now apply Byte.byte_dec_lb. Qed.

Lemma byte_eqb_neq a b : a <> b -> Byte.eqb a b = false.
Proof.
  intros H. destruct (Byte.eqb a b) eqn:E; [|reflexivity].
  now apply Byte.byte_dec_bl in E.
Qed.

Lemma memb_In c s : memb c s = true <-> In c s.
Proof.
  induction s as [|b s IH]; simpl.
  - split; [discriminate|tauto].
  - rewrite orb_true_iff, IH. split.
    + intros [H|H]; [left; now apply Byte.byte_dec_bl|now right].
    + intros [H|H]; [left; now apply Byte.byte_dec_lb|now right].
Qed.

Lemma nodupb_NoDup s : nodupb s = true -> NoDup s.
Proof.
  induction s as [|b s IH]; simpl; intros H.
  - constructor.
  - apply andb_true_iff in H as [Hm Hn]. constructor.
    + intros Hin. apply memb_In in Hin. rewrite Hin in Hm. discriminate.
    + now apply IH.
Qed.

Lemma valid_unpack i :
  valid i ->
  NoDup (Alphabet i) /\ 2 <= len (Alphabet i) /\
  0 < Checksum i <= len (Alphabet i) /\ 0 <= BlockSize i < 64.
Proof.
  unfold valid, validb. intros H.
  repeat (apply andb_true_iff in H as [H ?]).
  apply nodupb_NoDup in H.
  repeat match goal with
         | E : (_ <=? _) = true |- _ => apply Z.leb_le in E
         | E : (_ <? _) = true |- _ => apply Z.ltb_lt in E
         end.
  repeat split; assumption.
Qed.

Lemma len_nonneg s : 0 <= len s.
Proof. unfold len. lia. Qed.

Lemma len_app s t : len (s ++ t) = len s + len t.
Proof. unfold len. rewrite length_app. lia. Qed.

Lemma len_cons c s : len (c :: s) = 1 + len s.
Proof. unfold len. simpl List.length. lia. Qed.

Lemma len_repeat c k : len (repeat c k) = Z.of_nat k.
Proof. unfold len. now rewrite repeat_length. Qed.

Lemma index_in_range a k :
  0 <= k < len a ->
  exists c, index a k = Return c /\ nth_error a (Z.to_nat k) = Some c.
Proof.
  intros Hk. unfold index.
  destruct (nth_error a (Z.to_nat k)) as [c|] eqn:E.
  - now exists c.
  - apply nth_error_None in E. unfold len in Hk. lia.
Qed.

Lemma IndexByte_bounds a c : -1 <= IndexByte a c < len a.
Proof.
  induction a as [|b a IH]; simpl.
  - unfold len. simpl. lia.
  - rewrite len_cons. destruct (Byte.eqb b c).
    + pose proof (len_nonneg a). lia.
    + destruct (Z.ltb_spec (IndexByte a c) 0); lia.
Qed.

Lemma IndexByte_absent a c : ~ In c a -> IndexByte a c = -1.
Proof.
  induction a as [|b a IH]; simpl; intros H; [reflexivity|].
  rewrite byte_eqb_neq by tauto.
  rewrite IH by tauto. reflexivity.
Qed.

(** In a duplicate-free alphabet a symbol is found where it stands. *)
Lemma IndexByte_nth a : NoDup a -> forall k c,
  nth_error a k = Some c -> IndexByte a c = Z.of_nat k.
Proof.
  induction 1 as [|b a Hnotin Hnd IH]; intros k c Hk.
  - destruct k; discriminate.
  - destruct k as [|k]; simpl in Hk.
    + injection Hk as ->. simpl. now rewrite byte_eqb_refl.
    + simpl IndexByte.
      assert (Hin : In c a) by (eapply nth_error_In; eassumption).
      rewrite byte_eqb_neq by (intros ->; contradiction).
      rewrite (IH k c Hk).
      destruct (Z.ltb_spec (Z.of_nat k) 0); lia.
Qed.

(** ** Base conversion *)

Create HintDb u64 discriminated.

#[local] Hint Resolve u64_range scramble_range len_nonneg : u64.
#[local] Hint Extern 2 (in_u64 _) => unfold in_u64; lia : u64.
#[local] Hint Extern 2 (_ <= _ <= _) => lia : u64.

Section Radix.

Variable a : list byte.

Lemma posval_app acc s t : posval a acc (s ++ t) = posval a (posval a acc s) t.
Proof. unfold posval. apply fold_left_app. Qed.

Lemma debase_step_wrap r c :
  debase_step a (u64 r) c = u64 (r * len a + IndexByte a c).
Proof.
  unfold debase_step, u64.
  rewrite Z.mul_mod_idemp_l by lia.
  rewrite <- Z.add_mod by lia. reflexivity.
Qed.

(** [debase] is the unbounded value reduced modulo 2^64. *)
Lemma debase_from_posval s : forall acc,
  fold_left (debase_step a) s (u64 acc) = u64 (posval a acc s).
Proof.
  induction s as [|c s IH]; intros acc; simpl.
  - reflexivity.
  - rewrite debase_step_wrap. apply IH.
Qed.

Lemma posval_zeros c k :
  IndexByte a c = 0 -> posval a 0 (repeat c k) = 0.
Proof.
  intros Hc. induction k as [|k IH]; simpl; [reflexivity|].
  unfold posval in *. simpl. rewrite Hc. simpl. exact IH.
Qed.

Section Digits.

Hypothesis a_nodup : NoDup a.
Hypothesis a_two : 2 <= len a.

(** What the loop of [enbase] computes, for any amount of fuel that covers
    [x]: the digits are put before [chars], they are alphabet symbols,
    there are at most [fuel] of them, and their value is [x]. *)
Lemma enbase_loop_spec :
  forall fuel x chars, 0 <= x < 2 ^ Z.of_nat fuel ->
  exists ds,
    enbase_loop fuel a (len a) x chars = Return (ds ++ chars) /\
    Forall (fun c => In c a) ds /\
    (List.length ds <= fuel)%nat /\
    (x = 0 -> ds = []) /\
    (0 < x -> ds <> []) /\
    forall acc, posval a acc ds = acc * len a ^ len ds + x.
Proof.
  induction fuel as [|fuel IH]; intros x chars Hx.
  - simpl in Hx. assert (x = 0) by lia. subst x.
    exists []. simpl. repeat split; auto; lia.
  - cbn [enbase_loop].
    destruct (Z.gtb_spec x 0) as [Hpos|Hzero].
    + destruct (Z.eqb_spec (len a) 0); [lia|].
      assert (Hc : 0 <= x mod len a < len a) by (apply Z.mod_pos_bound; lia).
      destruct (index_in_range a _ Hc) as (d & Hd & Hnth).
      rewrite Hd. cbn [bind].
      assert (Hq : 0 <= x / len a < 2 ^ Z.of_nat fuel).
      { split; [apply Z.div_pos; lia|].
        apply Z.div_lt_upper_bound; [lia|].
        rewrite Nat2Z.inj_succ, Z.pow_succ_r in Hx by lia. nia. }
      destruct (IH (x / len a) (d :: chars) Hq)
        as (ds & Hrun & Hall & Hlen & _ & _ & Hval).
      exists (ds ++ [d]). rewrite <- app_assoc. simpl.
      split; [exact Hrun|].
      split.
      { apply Forall_app. split; [assumption|].
        constructor; [|constructor]. eapply nth_error_In; eassumption. }
      split; [rewrite length_app; simpl; lia|].
      split; [lia|].
      split; [intros _ E; now destruct ds|].
      intros acc. rewrite posval_app, Hval.
      unfold posval at 1. simpl.
      rewrite (IndexByte_nth a a_nodup _ _ Hnth).
      rewrite Z2Nat.id by lia.
      rewrite len_app, Z.pow_add_r by auto with u64.
      change (len [d]) with 1. rewrite Z.pow_1_r.
      pose proof (Z.div_mod x (len a)). lia.
    + assert (x = 0) by lia. subst x.
      exists []. simpl. repeat split; auto; lia.
Qed.

(** Fuel is never the limit for an alphabet of two or more symbols... *)
Lemma enbase_loop_fuel fuel x chars :
  0 <= x < 2 ^ Z.of_nat fuel ->
  returns (enbase_loop fuel a (len a) x chars).
Proof.
  intros Hx.
  destruct (enbase_loop_spec fuel x chars Hx) as (ds & Hrun & _).
  now exists (ds ++ chars).
Qed.

End Digits.

End Radix.

Lemma debase_posval i s : debase i s = u64 (posval (Alphabet i) 0 s).
Proof. unfold debase. now rewrite <- debase_from_posval. Qed.

Lemma debase_range i s : in_u64 (debase i s).
Proof. rewrite debase_posval. apply u64_range. Qed.

#[local] Hint Resolve debase_range : u64.

Lemma enbase_loop_S fuel a n x chars :
  enbase_loop (S fuel) a n x chars =
  if x >? 0 then
    if n =? 0 then Panic DivideByZero
    else d <- index a (x mod n) ;; enbase_loop fuel a n (x / n) (d :: chars)
  else Return chars.
Proof. reflexivity. Qed.

(** More fuel does not change a result that was reached. *)
Lemma enbase_loop_more_fuel a n : forall fuel x chars,
  enbase_loop fuel a n x chars <> Diverge ->
  enbase_loop (S fuel) a n x chars = enbase_loop fuel a n x chars.
Proof.
  induction fuel as [|fuel IH]; intros x chars H.
  - rewrite enbase_loop_S. simpl in H |- *.
    destruct (x >? 0); [congruence|reflexivity].
  - rewrite (enbase_loop_S (S fuel)), (enbase_loop_S fuel).
    rewrite (enbase_loop_S fuel) in H.
    destruct (x >? 0); [|reflexivity].
    destruct (n =? 0); [reflexivity|].
    destruct (index a (x mod n)) as [d| |]; cbn [bind] in *; try reflexivity.
    apply IH. exact H.
Qed.

(** ... and an alphabet of one symbol makes the loop spin on any [x > 0]. *)
Lemma enbase_loop_spins c fuel x chars :
  0 < x -> enbase_loop fuel [c] 1 x chars = Diverge.
Proof.
  intros Hx. revert chars. induction fuel as [|fuel IH]; intros chars; simpl.
  - destruct (Z.gtb_spec x 0); [reflexivity|lia].
  - destruct (Z.gtb_spec x 0); [|lia].
    rewrite Z.mod_1_r, Z.div_1_r. simpl. apply IH.
Qed.

Lemma scramble_zero i : 0 <= BlockSize i <= 64 -> scramble i 0 = 0.
Proof.
  intros HB. apply Z.bits_inj'. intros j Hj.
  rewrite scramble_bits by (assumption || (unfold in_u64; lia)).
  destruct (_ <? _); now rewrite !Z.bits_0.
Qed.

Lemma first_symbol a :
  1 <= len a -> exists a0, index a 0 = Return a0 /\ IndexByte a a0 = 0 /\ In a0 a.
Proof.
  destruct a as [|a0 a]; intros H.
  - unfold len in H. simpl in H. lia.
  - exists a0. simpl. rewrite byte_eqb_refl. auto.
Qed.

Lemma checksum_returns i v :
  0 < Checksum i <= len (Alphabet i) ->
  exists c, checksum i v = Return c /\ In c (Alphabet i).
Proof.
  intros HM. unfold checksum.
  destruct (Z.eqb_spec (Checksum i) 0); [lia|].
  assert (Hr : 0 <= v mod Checksum i < len (Alphabet i)).
  { pose proof (Z.mod_pos_bound v (Checksum i)). lia. }
  destruct (index_in_range _ _ Hr) as (c & Hc & Hnth).
  exists c. split; [assumption|]. eapply nth_error_In; eassumption.
Qed.

(** The facts a proof about a valid configuration starts from: the parts
    of [valid] and the first alphabet symbol, the zero digit. *)
Ltac unpack_valid Hv :=
  match type of Hv with
  | valid ?i =>
      destruct (valid_unpack i Hv) as (Hnd & HK & HM & HB);
      destruct (first_symbol (Alphabet i)) as (a0 & Ha0 & Hidx & Hin0);
      [lia|]
  end.

(** The digits [enbase] produces for a 64-bit [x]. *)
Lemma natural_spec i x :
  valid i -> in_u64 x ->
  exists ds,
    natural i x = Return ds /\
    Forall (fun c => In c (Alphabet i)) ds /\
    len ds <= 64 /\
    (x = 0 -> ds = []) /\
    (0 < x -> ds <> []) /\
    forall acc, posval (Alphabet i) acc ds = acc * len (Alphabet i) ^ len ds + x.
Proof.
  intros Hv Hx. destruct (valid_unpack i Hv) as (Hnd & HK & _).
  destruct (enbase_loop_spec _ Hnd HK 64 x [] Hx)
    as (ds & Hrun & Hall & Hlen & H0 & Hpos & Hval).
  exists ds. unfold natural. rewrite Hrun, app_nil_r.
  repeat split; auto. unfold len. lia.
Qed.

(** [enbase] in closed form: it returns exactly when the digits fit into
    [minLength] and the padding fits Go's [int]; otherwise the length
    handed to [make] is out of range. *)
Lemma enbase_spec i x minLength ds a0 :
  in_u64 minLength ->
  natural i x = Return ds -> len ds <= 64 ->
  index (Alphabet i) 0 = Return a0 ->
  enbase i x minLength =
  if (len ds <=? minLength) && (minLength - len ds <=? maxInt)
  then Return (repeat a0 (Z.to_nat (minLength - len ds)) ++ ds)
  else Panic MakesliceLen.
Proof.
  intros HL Hnat Hlen Ha0. unfold enbase, leftPad, times.
  rewrite Hnat. cbn [bind]. rewrite Ha0. cbn [bind].
  pose proof (len_nonneg ds) as Hds.
  unfold in_u64, maxInt in *.
  destruct (Z.leb_spec (len ds) minLength) as [Hfit|Hfit]; cbn [andb].
  - rewrite u64_small by (unfold in_u64; lia).
    destruct (Z.gtb_spec (minLength - len ds) (2 ^ 63 - 1)),
             (Z.leb_spec (minLength - len ds) (2 ^ 63 - 1));
      try lia; reflexivity.
  - assert (E : u64 (minLength - len ds) = minLength - len ds + 2 ^ 64).
    { unfold u64. symmetry. apply Z.mod_unique with (q := -1); lia. }
    rewrite E.
    destruct (Z.gtb_spec (minLength - len ds + 2 ^ 64) (2 ^ 63 - 1));
      [reflexivity|lia].
Qed.

Lemma debase_padded i x k ds a0 :
  in_u64 x ->
  IndexByte (Alphabet i) a0 = 0 ->
  (forall acc, posval (Alphabet i) acc ds = acc * len (Alphabet i) ^ len ds + x) ->
  debase i (repeat a0 k ++ ds) = x.
Proof.
  intros Hx Ha0 Hval.
  rewrite debase_posval, posval_app, posval_zeros by assumption.
  rewrite Hval. simpl. now apply u64_small.
Qed.

(** ** Encode and Decode *)

Lemma string_of_byte_ascii c : byte_val c < 128 -> string_of_byte c = [c].
Proof.
  intros H. unfold string_of_byte. cbv zeta.
  destruct (Z.ltb_spec (byte_val c) 128); [reflexivity|lia].
Qed.

(** [Encode] in closed form. *)
Lemma Encode_spec i n minLength :
  valid i -> in_u64 n -> in_u64 minLength ->
  exists c a0 ds,
    checksum i n = Return c /\
    index (Alphabet i) 0 = Return a0 /\
    IndexByte (Alphabet i) a0 = 0 /\
    natural i (scramble i n) = Return ds /\
    (forall acc, posval (Alphabet i) acc ds
                 = acc * len (Alphabet i) ^ len ds + scramble i n) /\
    Encode i n minLength =
    if fits i (scramble i n) minLength
    then Return (string_of_byte c
                   ++ repeat a0 (Z.to_nat (minLength - len ds)) ++ ds, true)
    else Panic MakesliceLen.
Proof.
  intros Hv Hn HL.
  unpack_valid Hv.
  destruct (checksum_returns i n HM) as (c & Hc & _).
  assert (Hs : in_u64 (scramble i n)) by auto with u64.
  destruct (natural_spec i _ Hv Hs) as (ds & Hnat & _ & Hlen & _ & _ & Hval).
  exists c, a0, ds. repeat (split; [assumption|]).
  unfold Encode. rewrite Hc. cbn [bind].
  rewrite (enbase_spec i _ minLength ds a0 HL Hnat Hlen Ha0).
  unfold fits, natural_len. rewrite Hnat.
  destruct (_ && _); reflexivity.
Qed.

(** Whatever its head, a string whose tail was built by [enbase] from
    [scramble n] decodes to [n]; the flag compares the head with the
    checksum symbol of [n]. *)
Lemma Decode_enbase i n minLength body h :
  valid i -> in_u64 n -> in_u64 minLength ->
  enbase i (scramble i n) minLength = Return body ->
  exists c, checksum i n = Return c /\
            Decode i (h :: body) = Return (n, Byte.eqb c h).
Proof.
  intros Hv Hn HL Hbody.
  unpack_valid Hv.
  destruct (checksum_returns i n HM) as (c & Hc & _).
  assert (Hs : in_u64 (scramble i n)) by auto with u64.
  destruct (natural_spec i _ Hv Hs) as (ds & Hnat & _ & Hlen & _ & _ & Hval).
  rewrite (enbase_spec i _ minLength ds a0 HL Hnat Hlen Ha0) in Hbody.
  destruct (_ && _); [|discriminate].
  injection Hbody as <-.
  exists c. split; [assumption|].
  unfold Decode.
  rewrite (debase_padded i (scramble i n) _ ds a0 Hs Hidx Hval).
  rewrite scramble_involutive by (assumption || lia).
  rewrite Hc. reflexivity.
Qed.

Lemma enbase_length i x minLength body :
  valid i -> in_u64 x -> in_u64 minLength ->
  enbase i x minLength = Return body -> len body = minLength.
Proof.
  intros Hv Hx HL Hbody.
  unpack_valid Hv.
  destruct (natural_spec i _ Hv Hx) as (ds & Hnat & _ & Hlen & _ & _ & Hval).
  rewrite (enbase_spec i _ minLength ds a0 HL Hnat Hlen Ha0) in Hbody.
  destruct (Z.leb_spec (len ds) minLength); cbn [andb] in Hbody; [|discriminate].
  destruct (_ <=? maxInt); [|discriminate].
  injection Hbody as <-.
  rewrite len_app, len_repeat. pose proof (len_nonneg ds). lia.
Qed.

Lemma enbase_debase i x minLength body :
  valid i -> in_u64 x -> in_u64 minLength ->
  enbase i x minLength = Return body -> debase i body = x.
Proof.
  intros Hv Hx HL Hbody.
  unpack_valid Hv.
  destruct (natural_spec i _ Hv Hx) as (ds & Hnat & _ & Hlen & _ & _ & Hval).
  rewrite (enbase_spec i _ minLength ds a0 HL Hnat Hlen Ha0) in Hbody.
  destruct (_ && _); [|discriminate].
  injection Hbody as <-.
  now apply debase_padded.
Qed.

Lemma app_same_length_tail (A : Type) (p q s t : list A) :
  p ++ s = q ++ t -> List.length s = List.length t -> s = t.
Proof.
  intros E Hlen.
  assert (Hp : List.length p = List.length q).
  { apply (f_equal (@List.length A)) in E. rewrite !length_app in E. lia. }
  revert q E Hp. induction p as [|a p IH]; intros [|b q] E Hp;
    simpl in *; try discriminate.
  - assumption.
  - injection E as _ E. apply (IH q); [assumption|lia].
Qed.

(** Where the digits fit, [Encode] returns, and with an ASCII checksum
    symbol [Decode] gives the number back. *)
Lemma Encode_Decode_fits i n minLength :
  valid i -> in_u64 n -> in_u64 minLength ->
  fits i (scramble i n) minLength = true -> ascii_head i n ->
  exists s, Encode i n minLength = Return (s, true) /\
            Decode i s = Return (n, true).
Proof.
  intros Hv Hn HL Hfit Hascii.
  destruct (Encode_spec i n minLength Hv Hn HL)
    as (c & a0 & ds & Hc & Ha0 & Hidx & Hnat & Hval & HE).
  rewrite Hfit in HE.
  rewrite string_of_byte_ascii in HE by (now apply Hascii).
  eexists. split; [exact HE|].
  assert (Hbody : enbase i (scramble i n) minLength
                  = Return (repeat a0 (Z.to_nat (minLength - len ds)) ++ ds)).
  { unfold Encode in HE. rewrite Hc in HE. cbn [bind] in HE.
    destruct (enbase i (scramble i n) minLength); try discriminate.
    cbn [bind] in HE. injection HE as HE.
    rewrite string_of_byte_ascii in HE by (now apply Hascii).
    injection HE as ->. reflexivity. }
  destruct (Decode_enbase i n minLength _ c Hv Hn HL Hbody) as (c' & Hc' & HD).
  rewrite Hc in Hc'. injection Hc' as <-.
  simpl app. rewrite HD, byte_eqb_refl. reflexivity.
Qed.

Lemma Encode_inv i n minLength s ok :
  Encode i n minLength = Return (s, ok) ->
  exists c body,
    checksum i n = Return c /\
    enbase i (scramble i n) minLength = Return body /\
    s = string_of_byte c ++ body /\ ok = true.
Proof.
  unfold Encode. intros H.
  destruct (checksum i n) as [c| |]; try discriminate. cbn [bind] in H.
  destruct (enbase i (scramble i n) minLength) as [body| |]; try discriminate.
  cbn [bind] in H. injection H as <- <-.
  exists c, body. auto.
Qed.

Lemma enbase_exact i x ds :
  valid i -> in_u64 x -> natural i x = Return ds ->
  enbase i x (len ds) = Return ds.
Proof.
  intros Hv Hx Hnat.
  unpack_valid Hv.
  destruct (natural_spec i _ Hv Hx) as (ds' & Hnat' & _ & Hlen & _).
  rewrite Hnat in Hnat'. injection Hnat' as <-.
  pose proof (len_nonneg ds).
  rewrite (enbase_spec i x (len ds) ds a0); try assumption.
  - rewrite Z.leb_refl, Z.sub_diag. reflexivity.
  - unfold in_u64. lia.
Qed.

(** When the digits outnumber [minLength], [leftPad]'s subtraction wraps
    and [enbase] panics. *)
Lemma enbase_panics_when_longer i x minLength :
  valid i -> in_u64 x -> in_u64 minLength ->
  minLength < natural_len i x ->
  enbase i x minLength = Panic MakesliceLen.
Proof.
  intros Hv Hx HL Hlong.
  unpack_valid Hv.
  destruct (natural_spec i _ Hv Hx) as (ds & Hnat & _ & Hlen & _).
  unfold natural_len in Hlong. rewrite Hnat in Hlong.
  rewrite (enbase_spec i x minLength ds a0 HL Hnat Hlen Ha0).
  destruct (Z.leb_spec (len ds) minLength); [lia|reflexivity].
Qed.

Lemma Encode_panics_when_longer i n minLength :
  valid i -> in_u64 n -> in_u64 minLength ->
  minLength < natural_len i (scramble i n) ->
  Encode i n minLength = Panic MakesliceLen.
Proof.
  intros Hv Hn HL Hlong.
  destruct (valid_unpack i Hv) as (Hnd & HK & HM & HB).
  destruct (checksum_returns i n HM) as (c & Hc & _).
  unfold Encode. rewrite Hc. cbn [bind].
  rewrite enbase_panics_when_longer; try assumption; [reflexivity|].
  apply scramble_range; [assumption|lia].
Qed.

(** The stand-alone [Decode] computes the same value and reports the
    opposite flag. *)
Lemma Standalone_Decode_flag i s :
  Standalone.Decode i s =
  match Decode i s with
  | Return (v, ok) => Return (v, negb ok)
  | Panic p => Panic p
  | Diverge => Diverge
  end.
Proof.
  destruct s as [|b0 tl]; simpl; [reflexivity|].
  destruct (checksum i (scramble i (debase i tl))); reflexivity.
Qed.

(** ** The model on the documented inputs *)

Example scramble_default_1 : scramble default 1 = 2 ^ 23.
Proof. reflexivity. Qed.

Example Encode_default_1 :
  Encode default 1 MinLength = Return (list_byte_of_string "fhqyf7", true).
Proof. reflexivity. Qed.

Example Decode_default_1 :
  Decode default (list_byte_of_string "fhqyf7") = Return (1, true).
Proof. reflexivity. Qed.

(** The README sample: the numbers 1 to 10 come back. *)
Example readme_sample :
  validb readme = true /\
  forallb (roundtrip_ok readme MinLength) [1; 2; 3; 4; 5; 6; 7; 8; 9; 10] = true.
Proof. split; vm_compute; reflexivity. Qed.

(** * The claims *)

(** C1. Round trip.  The claim asks for [Decode (Encode n L) = (n, true)]
    for every [n], every [L] and every valid configuration.  With the
    default configuration and the default minimum length 5, the number
    2^25 scrambles to itself, needs six digits, and [Encode] panics in
    [leftPad]: [length - len(str)] wraps below zero and [make] rejects the
    length.  No string is produced, so there is nothing to decode. *)
Theorem Encode_panics_beyond_minLength :
  validb default = true /\
  scramble default 33554432 = 33554432 /\
  natural default 33554432 = Return (list_byte_of_string "fvssvf") /\
  Encode default 33554432 MinLength = Panic MakesliceLen.
Proof. repeat split; vm_compute; reflexivity. Qed.

(** C1, second defect: [string(c)] turns a checksum byte of 0x80 or more
    into two bytes, and [Decode] reads only the first. *)
Lemma Encode_Decode_non_ascii_head :
  validb latin1 = true /\
  Encode latin1 1 1 = Return ([xc3; xa9; xe9], true) /\
  Decode latin1 [xc3; xa9; xe9] = Return (2 ^ 64 - 2, false).
Proof. repeat split; vm_compute; reflexivity. Qed.

(** C2. No padding when the digits already reach [minLength].  The digit
    string of 2^25 has six symbols, more than the five asked for; instead
    of returning it unpadded, [enbase] panics. *)
Theorem enbase_panics_on_long_digits :
  natural default 33554432 = Return (list_byte_of_string "fvssvf") /\
  MinLength <= len (list_byte_of_string "fvssvf") /\
  enbase default 33554432 MinLength = Panic MakesliceLen.
Proof. repeat split; vm_compute; (reflexivity || discriminate). Qed.

(** C3, as stated, fails: [Encode] panics on (1, 0), and the stand-alone
    variant returns [false] where the package returns [true]. *)
Lemma Encode_flag_counterexample :
  validb default = true /\
  Encode default 1 0 = Panic MakesliceLen /\
  Standalone.Encode default 1 MinLength
  = Return (list_byte_of_string "fhqyf7", false).
Proof. repeat split; vm_compute; reflexivity. Qed.

(** C3, amended.  Under a valid configuration, whenever the digits of
    [scramble n] fit into [minLength], [Encode] of package [idencoder]
    returns with [true] as its second result, and [Encode] of the
    stand-alone variant returns the same string with [false], its second
    result being an error flag. *)
Theorem Encode_flag i n minLength :
  valid i -> in_u64 n -> in_u64 minLength ->
  fits i (scramble i n) minLength = true ->
  exists s, Encode i n minLength = Return (s, true) /\
            Standalone.Encode i n minLength = Return (s, false).
Proof.
  intros Hv Hn HL Hfit.
  destruct (Encode_spec i n minLength Hv Hn HL)
    as (c & a0 & ds & Hc & Ha0 & Hidx & Hnat & Hval & HE).
  rewrite Hfit in HE. eexists. split; [exact HE|].
  destruct (Encode_inv _ _ _ _ _ HE) as (c' & body & Hc' & Hbody & Hs & _).
  unfold Standalone.Encode. rewrite Hc', Hbody. cbn [bind].
  now rewrite Hs.
Qed.

Lemma Encode_flag_witness :
  valid default /\ in_u64 1 /\ in_u64 5 /\
  fits default (scramble default 1) 5 = true /\
  exists s, Encode default 1 5 = Return (s, true) /\
            Standalone.Encode default 1 5 = Return (s, false).
Proof.
  assert (Hv : valid default) by reflexivity.
  assert (H1 : in_u64 1) by (unfold in_u64; lia).
  assert (H5 : in_u64 5) by (unfold in_u64; lia).
  assert (Hf : fits default (scramble default 1) 5 = true) by reflexivity.
  repeat (split; [assumption|]).
  exact (Encode_flag default 1 5 Hv H1 H5 Hf).
Defined.

(** C4, as stated, fails: [Decode] slices [b[1:]] without a length check
    and panics on the empty string, and the one-symbol string made of the
    first alphabet symbol decodes successfully to 0. *)
Lemma Decode_short_counterexample :
  Decode default [] = Panic SliceBounds /\
  Decode default (list_byte_of_string "3") = Return (0, true) /\
  Encode default 0 0 = Return (list_byte_of_string "3", true).
Proof. repeat split; vm_compute; reflexivity. Qed.

(** C4, amended.  Under a valid configuration, [Decode] of a string of
    exactly one symbol [c] does not panic and reports no input error: it
    returns the value 0, with [ok] true exactly when [c] is the first
    alphabet symbol, the checksum symbol of 0.  That string is what
    [Encode 0 0] produces (as [string(a0)]). *)
Theorem Decode_single i c :
  valid i ->
  exists a0,
    index (Alphabet i) 0 = Return a0 /\
    Decode i [c] = Return (0, Byte.eqb a0 c) /\
    Encode i 0 0 = Return (string_of_byte a0, true).
Proof.
  intros Hv. unpack_valid Hv.
  assert (Hc : checksum i 0 = Return a0).
  { unfold checksum. destruct (Z.eqb_spec (Checksum i) 0); [lia|].
    now rewrite Z.mod_0_l by lia. }
  assert (Hs : scramble i 0 = 0) by (apply scramble_zero; lia).
  exists a0. split; [assumption|]. split.
  - unfold Decode, debase. simpl fold_left. now rewrite Hs, Hc.
  - unfold Encode, enbase, natural, leftPad, times.
    rewrite Hs, Hc. cbn [bind enbase_loop]. simpl (0 >? 0).
    cbn iota. cbn [bind]. rewrite Ha0. cbn [bind].
    vm_compute (u64 (0 - len [])). vm_compute (0 >? maxInt).
    cbn iota. cbn [bind]. simpl. now rewrite app_nil_r.
Qed.

Lemma Decode_single_witness :
  valid default /\
  exists a0,
    index (Alphabet default) 0 = Return a0 /\
    Decode default [x33] = Return (0, Byte.eqb a0 x33) /\
    Encode default 0 0 = Return (string_of_byte a0, true).
Proof.
  assert (Hv : valid default) by reflexivity.
  split; [assumption|].
  exact (Decode_single default x33 Hv).
Defined.

(** C5, as stated, fails: '!' is not in the default alphabet, yet
    [Decode] of "j!" returns 2^64 - 1 with [ok = true]. *)
Lemma Decode_foreign_byte_counterexample :
  memb x21 (Alphabet default) = false /\
  Decode default (list_byte_of_string "j!") = Return (2 ^ 64 - 1, true).
Proof. split; vm_compute; reflexivity. Qed.

(** C5, amended.  [Decode] makes no membership test.  Under a valid
    configuration, for every non-empty input whose tail contains a byte
    [c] that is not in the alphabet, [Decode] returns (it does not panic
    and reports no input error) the value [scramble (debase tail)]
    together with the outcome of the checksum comparison; in the fold of
    [debase] the absent byte counts as [uint64(-1)]: the result so far,
    [r], becomes [r * K - 1] modulo 2^64. *)
Theorem Decode_foreign_byte i h pre c post :
  valid i ->
  ~ In c (Alphabet i) ->
  let tl := pre ++ c :: post in
  (exists e,
     checksum i (scramble i (debase i tl)) = Return e /\
     Decode i (h :: tl) = Return (scramble i (debase i tl), Byte.eqb e h)) /\
  debase i tl =
  fold_left (debase_step (Alphabet i)) post
    (u64 (debase i pre * len (Alphabet i) - 1)).
Proof.
  intros Hv Hc tl. destruct (valid_unpack i Hv) as (Hnd & HK & HM & HB).
  split.
  - destruct (checksum_returns i (scramble i (debase i tl)) HM) as (e & He & _).
    exists e. split; [assumption|]. unfold Decode. now rewrite He.
  - unfold tl, debase. rewrite fold_left_app. cbn [fold_left].
    fold (debase i pre).
    rewrite <- (u64_small (debase i pre)) at 1 by apply debase_range.
    rewrite debase_step_wrap, IndexByte_absent by assumption.
    reflexivity.
Qed.

Lemma Decode_foreign_byte_witness :
  valid default /\
  ~ In x21 (Alphabet default) /\
  let tl := [x66] ++ x21 :: [x71] in
  (exists e,
     checksum default (scramble default (debase default tl)) = Return e /\
     Decode default (x6a :: tl)
     = Return (scramble default (debase default tl), Byte.eqb e x6a)) /\
  debase default tl =
  fold_left (debase_step (Alphabet default)) [x71]
    (u64 (debase default [x66] * len (Alphabet default) - 1)).
Proof.
  assert (Hv : valid default) by reflexivity.
  assert (Hc : ~ In x21 (Alphabet default)).
  { intros Hin. apply memb_In in Hin. discriminate Hin. }
  split; [assumption|]. split; [assumption|].
  exact (Decode_foreign_byte default x6a [x66] x21 [x71] Hv Hc).
Defined.

(** C6. For every 64-bit [n] and every block size [B] with [0 <= B < 64],
    [scramble (scramble n) = n]. *)
Theorem scramble_scramble i n :
  in_u64 n -> 0 <= BlockSize i < 64 -> scramble i (scramble i n) = n.
Proof. intros Hn HB. apply scramble_involutive; [assumption|lia]. Qed.

Lemma scramble_scramble_witness :
  in_u64 123456789 /\ 0 <= BlockSize default < 64 /\
  scramble default (scramble default 123456789) = 123456789.
Proof.
  assert (Hn : in_u64 123456789) by (unfold in_u64; lia).
  assert (HB : 0 <= BlockSize default < 64) by (cbn; unfold DefaultBlockSize; lia).
  repeat (split; [assumption|]).
  exact (scramble_scramble default 123456789 Hn HB).
Defined.

(** C8. For every 64-bit [n] and every block size [B < 64]: each bit of
    [scramble n] at a position [k >= B] is bit [k] of [n]; each bit at a
    position [k < B] is bit [B - k - 1] of [n]; and with [B = 0],
    [scramble n = n]. *)
Theorem scramble_bit_layout i n :
  in_u64 n -> 0 <= BlockSize i < 64 ->
  (forall k, BlockSize i <= k ->
     Z.testbit (scramble i n) k = Z.testbit n k) /\
  (forall k, 0 <= k < BlockSize i ->
     Z.testbit (scramble i n) k = Z.testbit n (BlockSize i - k - 1)) /\
  (BlockSize i = 0 -> scramble i n = n).
Proof.
  intros Hn HB.
  assert (Hhigh : forall k, BlockSize i <= k ->
            Z.testbit (scramble i n) k = Z.testbit n k).
  { intros k Hk. rewrite scramble_bits by (assumption || lia).
    destruct (Z.ltb_spec k (BlockSize i)); [lia|reflexivity]. }
  split; [exact Hhigh|]. split.
  - intros k Hk. rewrite scramble_bits by (assumption || lia).
    destruct (Z.ltb_spec k (BlockSize i)); [reflexivity|lia].
  - intros H0. apply Z.bits_inj'. intros k Hk. apply Hhigh. lia.
Qed.

Lemma scramble_bit_layout_witness :
  in_u64 1 /\ 0 <= BlockSize default < 64 /\
  (forall k, BlockSize default <= k ->
     Z.testbit (scramble default 1) k = Z.testbit 1 k) /\
  (forall k, 0 <= k < BlockSize default ->
     Z.testbit (scramble default 1) k = Z.testbit 1 (BlockSize default - k - 1)) /\
  (BlockSize default = 0 -> scramble default 1 = 1).
Proof.
  assert (Hn : in_u64 1) by (unfold in_u64; lia).
  assert (HB : 0 <= BlockSize default < 64) by (cbn; unfold DefaultBlockSize; lia).
  repeat (split; [assumption|]).
  exact (scramble_bit_layout default 1 Hn HB).
Defined.

(** C7. Under one valid configuration and one [minLength], [Encode] is
    injective: two different 64-bit numbers never get the same string. *)
Theorem Encode_injective i minLength n1 n2 s1 s2 ok1 ok2 :
  valid i -> in_u64 minLength -> in_u64 n1 -> in_u64 n2 ->
  n1 <> n2 ->
  Encode i n1 minLength = Return (s1, ok1) ->
  Encode i n2 minLength = Return (s2, ok2) ->
  s1 <> s2.
Proof.
  intros Hv HL Hn1 Hn2 Hne H1 H2 E.
  destruct (valid_unpack i Hv) as (Hnd & HK & HM & HB).
  destruct (Encode_inv _ _ _ _ _ H1) as (c1 & body1 & _ & Hb1 & -> & _).
  destruct (Encode_inv _ _ _ _ _ H2) as (c2 & body2 & _ & Hb2 & -> & _).
  assert (Hs1 : in_u64 (scramble i n1)) by auto with u64.
  assert (Hs2 : in_u64 (scramble i n2)) by auto with u64.
  assert (Hlen : List.length body1 = List.length body2).
  { pose proof (enbase_length _ _ _ _ Hv Hs1 HL Hb1) as L1.
    pose proof (enbase_length _ _ _ _ Hv Hs2 HL Hb2) as L2.
    unfold len in L1, L2. lia. }
  pose proof (app_same_length_tail _ _ _ _ _ E Hlen) as Hbody.
  apply Hne. apply (scramble_injective i); try assumption; [lia|].
  rewrite <- (enbase_debase _ _ _ _ Hv Hs1 HL Hb1).
  rewrite <- (enbase_debase _ _ _ _ Hv Hs2 HL Hb2).
  now rewrite Hbody.
Qed.

Lemma Encode_injective_witness :
  valid default /\ in_u64 5 /\ in_u64 1 /\ in_u64 2 /\ 1 <> 2 /\
  Encode default 1 5 = Return (list_byte_of_string "fhqyf7", true) /\
  Encode default 2 5 = Return (list_byte_of_string "qrb2br", true) /\
  list_byte_of_string "fhqyf7" <> list_byte_of_string "qrb2br".
Proof.
  assert (Hv : valid default) by reflexivity.
  assert (H5 : in_u64 5) by (unfold in_u64; lia).
  assert (H1 : in_u64 1) by (unfold in_u64; lia).
  assert (H2 : in_u64 2) by (unfold in_u64; lia).
  assert (Hne : 1 <> 2) by lia.
  assert (E1 : Encode default 1 5 = Return (list_byte_of_string "fhqyf7", true))
    by reflexivity.
  assert (E2 : Encode default 2 5 = Return (list_byte_of_string "qrb2br", true))
    by reflexivity.
  repeat (split; [assumption|]).
  exact (Encode_injective default 5 1 2 _ _ true true Hv H5 H1 H2 Hne E1 E2).
Defined.

(** C9. Take the string [Encode] returns for [n]: the checksum symbol
    [c0], written as [string(c0)], followed by the body.  If that first
    character is replaced by any other symbol [c], [Decode] of the altered
    string returns [ok = false] (with the value [n]).  Nothing is asked of
    [c] beyond being different from [c0], so this covers every other
    alphabet symbol. *)
Theorem head_swap_detected i n minLength c0 body ok c :
  valid i -> in_u64 n -> in_u64 minLength ->
  checksum i n = Return c0 ->
  Encode i n minLength = Return (string_of_byte c0 ++ body, ok) ->
  c <> c0 ->
  Decode i (c :: body) = Return (n, false).
Proof.
  intros Hv Hn HL Hc0 HE Hne.
  destruct (Encode_inv _ _ _ _ _ HE) as (c1 & body1 & Hc1 & Hbody & Hs & _).
  rewrite Hc0 in Hc1. injection Hc1 as <-.
  apply app_inv_head in Hs. subst body1.
  destruct (Decode_enbase i n minLength body c Hv Hn HL Hbody) as (c' & Hc' & HD).
  rewrite Hc0 in Hc'. injection Hc' as <-.
  rewrite HD. now rewrite byte_eqb_neq by congruence.
Qed.

Lemma head_swap_detected_witness :
  valid default /\ in_u64 1 /\ in_u64 5 /\
  checksum default 1 = Return x66 /\
  Encode default 1 5
  = Return (string_of_byte x66 ++ list_byte_of_string "hqyf7", true) /\
  x33 <> x66 /\
  Decode default (x33 :: list_byte_of_string "hqyf7") = Return (1, false).
Proof.
  assert (Hv : valid default) by reflexivity.
  assert (H1 : in_u64 1) by (unfold in_u64; lia).
  assert (H5 : in_u64 5) by (unfold in_u64; lia).
  assert (Hc : checksum default 1 = Return x66) by reflexivity.
  assert (HE : Encode default 1 5
               = Return (string_of_byte x66 ++ list_byte_of_string "hqyf7", true))
    by reflexivity.
  assert (Hne : x33 <> x66) by discriminate.
  repeat (split; [assumption|]).
  exact (head_swap_detected default 1 5 x66 _ true x33 Hv H1 H5 Hc HE Hne).
Defined.

(** A remark on the same defect as in C1: when the head takes two bytes,
    changing only the first of them leaves the second in the tail, and the
    result can pass the checksum. *)
Lemma first_byte_swap_non_ascii :
  validb latin1 = true /\
  checksum latin1 1 = Return xe9 /\
  Encode latin1 1 1 = Return (xc3 :: [xa9; xe9], true) /\
  Decode latin1 (x62 :: [xa9; xe9]) = Return (2 ^ 64 - 2, true).
Proof. repeat split; vm_compute; reflexivity. Qed.

(** C10. [debase] works modulo 2^64 and therefore is not injective on
    alphabet strings: under every valid configuration there are two
    different strings of alphabet symbols whose unbounded values differ by
    2^64, which [debase] maps to the same number, and which [Decode]
    accepts, behind the same head, as the same value with [ok = true]. *)
Theorem debase_wraps i :
  valid i ->
  exists s1 s2,
    s1 <> s2 /\
    Forall (fun c => In c (Alphabet i)) s1 /\
    Forall (fun c => In c (Alphabet i)) s2 /\
    posval (Alphabet i) 0 s1 = posval (Alphabet i) 0 s2 + 2 ^ 64 /\
    debase i s1 = debase i s2 /\
    exists h v,
      Decode i (h :: s1) = Return (v, true) /\
      Decode i (h :: s2) = Return (v, true).
Proof.
  intros Hv. destruct (valid_unpack i Hv) as (Hnd & HK & HM & HB).
  destruct (enbase_loop_spec _ Hnd HK 65 (2 ^ 64 + 1) [])
    as (s1 & _ & Hall1 & _ & _ & _ & Hval1); [lia|].
  destruct (enbase_loop_spec _ Hnd HK 64 1 [])
    as (s2 & _ & Hall2 & _ & _ & _ & Hval2); [lia|].
  assert (P1 : posval (Alphabet i) 0 s1 = 2 ^ 64 + 1) by (rewrite Hval1; lia).
  assert (P2 : posval (Alphabet i) 0 s2 = 1) by (rewrite Hval2; lia).
  assert (D1 : debase i s1 = 1) by (rewrite debase_posval, P1; reflexivity).
  assert (D2 : debase i s2 = 1) by (rewrite debase_posval, P2; reflexivity).
  exists s1, s2.
  split; [intros E; rewrite E, P2 in P1; lia|].
  repeat (split; [assumption || lia || congruence|]).
  destruct (checksum_returns i (scramble i 1) HM) as (h & Hh & _).
  exists h, (scramble i 1).
  unfold Decode. rewrite D1, D2, Hh. cbn [bind].
  now rewrite byte_eqb_refl.
Qed.

Lemma debase_wraps_witness :
  valid default /\
  exists s1 s2,
    s1 <> s2 /\
    Forall (fun c => In c (Alphabet default)) s1 /\
    Forall (fun c => In c (Alphabet default)) s2 /\
    posval (Alphabet default) 0 s1 = posval (Alphabet default) 0 s2 + 2 ^ 64 /\
    debase default s1 = debase default s2 /\
    exists h v,
      Decode default (h :: s1) = Return (v, true) /\
      Decode default (h :: s2) = Return (v, true).
Proof.
  assert (Hv : valid default) by reflexivity.
  split; [assumption|].
  exact (debase_wraps default Hv).
Defined.

(** * Further properties of the engine *)

(** ** Padding *)

(** X1. [leftPad] ([times] included) never truncates: if [str] has at most
    [length] bytes (and the pad fits [int]) the result is [str] behind
    [length - len str] copies of [pad], hence exactly [length] bytes long;
    if [str] is longer, the subtraction wraps and [make] panics. *)
Theorem leftPad_closed_form str length pad :
  in_u64 length -> len str <= maxInt ->
  leftPad str length pad =
  (if (len str <=? length) && (length - len str <=? maxInt)
   then Return (repeat pad (Z.to_nat (length - len str)) ++ str)
   else Panic MakesliceLen) /\
  (forall r, leftPad str length pad = Return r -> len r = length).
Proof.
  intros HL Hstr. pose proof (len_nonneg str) as Hs.
  assert (E : leftPad str length pad =
              if (len str <=? length) && (length - len str <=? maxInt)
              then Return (repeat pad (Z.to_nat (length - len str)) ++ str)
              else Panic MakesliceLen).
  { unfold leftPad, times. unfold in_u64, maxInt in *.
    destruct (Z.leb_spec (len str) length) as [Hfit|Hfit]; cbn [andb].
    - rewrite u64_small by (unfold in_u64; lia).
      destruct (Z.gtb_spec (length - len str) (2 ^ 63 - 1)),
               (Z.leb_spec (length - len str) (2 ^ 63 - 1));
        try lia; reflexivity.
    - assert (E : u64 (length - len str) = length - len str + 2 ^ 64).
      { unfold u64. symmetry. apply Z.mod_unique with (q := -1); lia. }
      rewrite E.
      destruct (Z.gtb_spec (length - len str + 2 ^ 64) (2 ^ 63 - 1));
        [reflexivity|lia]. }
  split; [exact E|].
  intros r Hr. rewrite E in Hr.
  destruct (Z.leb_spec (len str) length); cbn [andb] in Hr; [|discriminate].
  destruct (_ <=? maxInt); [|discriminate].
  injection Hr as <-. rewrite len_app, len_repeat. lia.
Qed.

Lemma leftPad_closed_form_witness :
  in_u64 5 /\ len (list_byte_of_string "ab") <= maxInt /\
  leftPad (list_byte_of_string "ab") 5 x30 =
  (if (len (list_byte_of_string "ab") <=? 5)
      && (5 - len (list_byte_of_string "ab") <=? maxInt)
   then Return (repeat x30 (Z.to_nat (5 - len (list_byte_of_string "ab")))
                  ++ list_byte_of_string "ab")
   else Panic MakesliceLen) /\
  (forall r, leftPad (list_byte_of_string "ab") 5 x30 = Return r -> len r = 5).
Proof.
  assert (H5 : in_u64 5) by (unfold in_u64; lia).
  assert (Hs : len (list_byte_of_string "ab") <= maxInt) by (vm_compute; discriminate).
  repeat (split; [assumption|]).
  exact (leftPad_closed_form (list_byte_of_string "ab") 5 x30 H5 Hs).
Defined.

(** ** How many digits *)

Section DigitCount.

Variable a : list byte.
Hypothesis a_nodup : NoDup a.
Hypothesis a_two : 2 <= len a.

Lemma enbase_loop_count : forall fuel x chars ds,
  0 <= x < 2 ^ Z.of_nat fuel ->
  enbase_loop fuel a (len a) x chars = Return (ds ++ chars) ->
  x < len a ^ len ds /\ (0 < x -> len a ^ (len ds - 1) <= x).
Proof.
  induction fuel as [|fuel IH]; intros x chars ds Hx Hrun.
  - simpl in Hx. assert (x = 0) by lia. subst x.
    split; [|lia]. apply Z.pow_pos_nonneg; [lia|apply len_nonneg].
  - rewrite enbase_loop_S in Hrun.
    destruct (Z.gtb_spec x 0) as [Hpos|Hzero].
    + destruct (Z.eqb_spec (len a) 0); [lia|].
      assert (Hc : 0 <= x mod len a < len a) by (apply Z.mod_pos_bound; lia).
      destruct (index_in_range a _ Hc) as (d & Hd & Hnth).
      rewrite Hd in Hrun. cbn [bind] in Hrun.
      assert (Hq : 0 <= x / len a < 2 ^ Z.of_nat fuel).
      { split; [apply Z.div_pos; lia|].
        apply Z.div_lt_upper_bound; [lia|].
        rewrite Nat2Z.inj_succ, Z.pow_succ_r in Hx by lia. nia. }
      destruct (enbase_loop_spec a a_nodup a_two fuel (x / len a) (d :: chars) Hq)
        as (ds' & Hrun' & _ & _ & Hnil & _ & _).
      rewrite Hrun' in Hrun. injection Hrun as Hrun.
      assert (Hds : ds = ds' ++ [d]).
      { apply (app_inv_tail chars). rewrite <- app_assoc. simpl. now symmetry. }
      destruct (IH (x / len a) (d :: chars) ds' Hq Hrun') as (Hup & Hlow).
      subst ds. rewrite len_app. change (len [d]) with 1.
      pose proof (len_nonneg ds') as Hl.
      pose proof (Z.div_mod x (len a)) as Hdm.
      split.
      * rewrite Z.pow_add_r, Z.pow_1_r by lia. nia.
      * intros _. replace (len ds' + 1 - 1) with (len ds') by lia.
        destruct (Z.eq_dec (x / len a) 0) as [E0|E0].
        -- rewrite (Hnil E0). change (len []) with 0. simpl. lia.
        -- assert (Hq0 : 0 < x / len a) by lia.
           specialize (Hlow Hq0).
           assert (Hl1 : 1 <= len ds').
           { destruct ds'; [|rewrite len_cons; pose proof (len_nonneg ds'); lia].
             change (len []) with 0 in Hup. simpl in Hup. lia. }
           replace (len ds') with (len ds' - 1 + 1) by lia.
           rewrite Z.pow_add_r, Z.pow_1_r by lia. nia.
    + injection Hrun as Hrun.
      assert (ds = []).
      { apply (app_inv_tail chars). now symmetry. }
      subst ds. assert (x = 0) by lia. subst x.
      split; [|lia]. change (len []) with 0. simpl. lia.
Qed.

End DigitCount.

Lemma natural_len_facts i x :
  valid i -> in_u64 x ->
  0 <= natural_len i x <= 64 /\
  x < len (Alphabet i) ^ natural_len i x /\
  (0 < x -> len (Alphabet i) ^ (natural_len i x - 1) <= x) /\
  (x = 0 -> natural_len i x = 0).
Proof.
  intros Hv Hx. destruct (valid_unpack i Hv) as (Hnd & HK & _).
  destruct (natural_spec i x Hv Hx) as (ds & Hnat & _ & Hlen & Hnil & _).
  unfold natural_len. rewrite Hnat.
  assert (Hrun : enbase_loop 64 (Alphabet i) (len (Alphabet i)) x []
                 = Return (ds ++ [])) by (rewrite app_nil_r; exact Hnat).
  destruct (enbase_loop_count _ Hnd HK 64 x [] ds Hx Hrun) as (Hup & Hlow).
  pose proof (len_nonneg ds).
  repeat split; try lia; try assumption.
  intros E. now rewrite (Hnil E).
Qed.

(** X2. The digit string [enbase] builds for [x] before padding is the
    shortest one: with [K] symbols it has [L] digits where
    [K^(L-1) <= x < K^L] (none for 0), and never more than 64. *)
Theorem natural_len_bounds i x :
  valid i -> in_u64 x ->
  0 <= natural_len i x <= 64 /\
  x < len (Alphabet i) ^ natural_len i x /\
  (0 < x -> len (Alphabet i) ^ (natural_len i x - 1) <= x) /\
  (x = 0 -> natural_len i x = 0).
Proof. exact (natural_len_facts i x). Qed.

Lemma natural_len_bounds_witness :
  valid default /\ in_u64 33554432 /\
  0 <= natural_len default 33554432 <= 64 /\
  33554432 < len (Alphabet default) ^ natural_len default 33554432 /\
  (0 < 33554432 ->
   len (Alphabet default) ^ (natural_len default 33554432 - 1) <= 33554432) /\
  (33554432 = 0 -> natural_len default 33554432 = 0).
Proof.
  assert (Hv : valid default) by reflexivity.
  assert (Hx : in_u64 33554432) by (unfold in_u64; lia).
  repeat (split; [assumption|]).
  exact (natural_len_bounds default 33554432 Hv Hx).
Defined.

Lemma natural_len_le i x L :
  valid i -> in_u64 x -> 0 <= L ->
  (natural_len i x <= L <-> x < len (Alphabet i) ^ L).
Proof.
  intros Hv Hx HL. destruct (valid_unpack i Hv) as (Hnd & HK & _).
  destruct (natural_len_facts i x Hv Hx) as (Hr & Hup & Hlow & Hz).
  split.
  - intros Hle. eapply Z.lt_le_trans; [exact Hup|].
    apply Z.pow_le_mono_r; lia.
  - intros Hlt.
    destruct (Z.le_gt_cases (natural_len i x) L) as [|Hgt]; [assumption|exfalso].
    assert (Hpos : 0 < x).
    { destruct (Z.eq_dec x 0) as [E|E]; [rewrite (Hz E) in Hgt; lia|].
      unfold in_u64 in Hx. lia. }
    specialize (Hlow Hpos).
    assert (len (Alphabet i) ^ L <= len (Alphabet i) ^ (natural_len i x - 1))
      by (apply Z.pow_le_mono_r; lia).
    lia.
Qed.

(** ** Which numbers [Encode] accepts, and what it returns *)

(** X3. For a valid configuration and [minLength] within [int], [Encode]
    returns exactly for the numbers whose scrambled value is below
    [K^minLength]; for every other number it panics in [make]. *)
Theorem Encode_domain i n minLength :
  valid i -> in_u64 n -> 0 <= minLength <= maxInt ->
  (returns (Encode i n minLength)
   <-> scramble i n < len (Alphabet i) ^ minLength) /\
  (len (Alphabet i) ^ minLength <= scramble i n ->
   Encode i n minLength = Panic MakesliceLen).
Proof.
  intros Hv Hn HL.
  assert (HL64 : in_u64 minLength) by (unfold in_u64, maxInt in *; lia).
  destruct (valid_unpack i Hv) as (Hnd & HK & HM & HB).
  assert (Hs : in_u64 (scramble i n)) by auto with u64.
  destruct (Encode_spec i n minLength Hv Hn HL64)
    as (c & a0 & ds & _ & _ & _ & _ & _ & HE).
  destruct (natural_len_facts i _ Hv Hs) as (Hr & _).
  pose proof (natural_len_le i (scramble i n) minLength Hv Hs (proj1 HL)) as Hiff.
  unfold fits in HE.
  destruct (Z.leb_spec (natural_len i (scramble i n)) minLength) as [Hle|Hgt];
    cbn [andb] in HE.
  - destruct (Z.leb_spec (minLength - natural_len i (scramble i n)) maxInt);
      [|lia].
    split.
    + split; [intros _; now apply Hiff|intros _; rewrite HE; eexists; reflexivity].
    + intros Hge. apply Hiff in Hle. lia.
  - split.
    + split.
      * intros [r Hr']. rewrite HE in Hr'. discriminate.
      * intros Hlt. apply Hiff in Hlt. lia.
    + intros _. exact HE.
Qed.

Lemma Encode_domain_witness :
  valid default /\ in_u64 1 /\ 0 <= 5 <= maxInt /\
  (returns (Encode default 1 5)
   <-> scramble default 1 < len (Alphabet default) ^ 5) /\
  (len (Alphabet default) ^ 5 <= scramble default 1 ->
   Encode default 1 5 = Panic MakesliceLen).
Proof.
  assert (Hv : valid default) by reflexivity.
  assert (Hn : in_u64 1) by (unfold in_u64; lia).
  assert (HL : 0 <= 5 <= maxInt) by (unfold maxInt; lia).
  repeat (split; [assumption|]).
  exact (Encode_domain default 1 5 Hv Hn HL).
Defined.

Lemma enbase_symbols i x minLength body :
  valid i -> in_u64 x -> in_u64 minLength ->
  enbase i x minLength = Return body ->
  Forall (fun c => In c (Alphabet i)) body.
Proof.
  intros Hv Hx HL Hbody. unpack_valid Hv.
  destruct (natural_spec i _ Hv Hx) as (ds & Hnat & Hall & Hlen & _).
  rewrite (enbase_spec i _ minLength ds a0 HL Hnat Hlen Ha0) in Hbody.
  destruct (_ && _); [|discriminate].
  injection Hbody as <-. apply Forall_app. split; [|assumption].
  apply Forall_forall. intros c Hc. apply repeat_spec in Hc. now subst.
Qed.

(** X4. Whatever [Encode] returns has a fixed shape: the checksum symbol,
    which is one of the first [Checksum] alphabet symbols, written as
    [string(c)], then a body of exactly [minLength] alphabet symbols; the
    flag is [true].  So [minLength] is the exact length of the body, not
    a lower bound. *)
Theorem Encode_shape i n minLength s ok :
  valid i -> in_u64 n -> in_u64 minLength ->
  Encode i n minLength = Return (s, ok) ->
  exists c body,
    s = string_of_byte c ++ body /\
    nth_error (Alphabet i) (Z.to_nat (n mod Checksum i)) = Some c /\
    n mod Checksum i < Checksum i /\
    len body = minLength /\
    Forall (fun b => In b (Alphabet i)) body /\
    ok = true.
Proof.
  intros Hv Hn HL HE. destruct (valid_unpack i Hv) as (Hnd & HK & HM & HB).
  assert (Hs : in_u64 (scramble i n)) by auto with u64.
  destruct (Encode_inv _ _ _ _ _ HE) as (c & body & Hc & Hbody & Hstr & Hok).
  exists c, body. split; [assumption|].
  split.
  { unfold checksum, index in Hc.
    destruct (Checksum i =? 0); [discriminate|].
    destruct (nth_error _ _); [now injection Hc as ->|discriminate]. }
  split; [apply Z.mod_pos_bound; lia|].
  split; [exact (enbase_length i _ minLength body Hv Hs HL Hbody)|].
  split; [exact (enbase_symbols i _ minLength body Hv Hs HL Hbody)|assumption].
Qed.

Lemma Encode_shape_witness :
  valid default /\ in_u64 1 /\ in_u64 5 /\
  Encode default 1 5 = Return (list_byte_of_string "fhqyf7", true) /\
  exists c body,
    list_byte_of_string "fhqyf7" = string_of_byte c ++ body /\
    nth_error (Alphabet default) (Z.to_nat (1 mod Checksum default)) = Some c /\
    1 mod Checksum default < Checksum default /\
    len body = 5 /\
    Forall (fun b => In b (Alphabet default)) body /\
    true = true.
Proof.
  assert (Hv : valid default) by reflexivity.
  assert (H1 : in_u64 1) by (unfold in_u64; lia).
  assert (H5 : in_u64 5) by (unfold in_u64; lia).
  assert (HE : Encode default 1 5 = Return (list_byte_of_string "fhqyf7", true))
    by reflexivity.
  repeat (split; [assumption|]).
  exact (Encode_shape default 1 5 _ true Hv H1 H5 HE).
Defined.

(** ** Base conversion, both ways *)

Lemma IndexByte_found a c : In c a ->
  0 <= IndexByte a c /\ nth_error a (Z.to_nat (IndexByte a c)) = Some c.
Proof.
  induction a as [|b a IH]; simpl; intros H; [tauto|].
  destruct (Byte.eqb b c) eqn:E.
  - apply Byte.byte_dec_bl in E. subst. simpl. split; [lia|reflexivity].
  - destruct H as [H|H]; [subst; rewrite byte_eqb_refl in E; discriminate|].
    destruct (IH H) as (Hpos & Hnth).
    destruct (Z.ltb_spec (IndexByte a c) 0); [lia|].
    split; [lia|].
    rewrite Z2Nat.inj_add by lia. rewrite Nat.add_comm. simpl. exact Hnth.
Qed.

Lemma IndexByte_inj a c d :
  In c a -> In d a -> IndexByte a c = IndexByte a d -> c = d.
Proof.
  intros Hc Hd E.
  destruct (IndexByte_found a c Hc) as (_ & Nc).
  destruct (IndexByte_found a d Hd) as (_ & Nd).
  rewrite E in Nc. congruence.
Qed.

Lemma posval_snoc a acc s c :
  posval a acc (s ++ [c]) = posval a acc s * len a + IndexByte a c.
Proof. rewrite posval_app. reflexivity. Qed.

Lemma posval_range a s :
  1 <= len a -> Forall (fun c => In c a) s ->
  0 <= posval a 0 s < len a ^ len s.
Proof.
  intros HK. induction s as [|c s IH] using rev_ind; intros Hall.
  - change (len []) with 0. simpl. unfold posval. simpl. lia.
  - apply Forall_app in Hall as (Hs & Hc).
    inversion Hc as [|? ? Hin _]; subst.
    specialize (IH Hs). rewrite posval_snoc, len_app.
    change (len [c]) with 1.
    pose proof (IndexByte_found a c Hin) as (Hpos & _).
    pose proof (IndexByte_bounds a c) as Hb.
    pose proof (len_nonneg s).
    rewrite Z.pow_add_r, Z.pow_1_r by lia. nia.
Qed.

(** Two digit strings of the same length and value are the same string. *)
Lemma posval_inj a : 1 <= len a -> forall s t,
  Forall (fun c => In c a) s -> Forall (fun c => In c a) t ->
  List.length s = List.length t ->
  posval a 0 s = posval a 0 t -> s = t.
Proof.
  intros HK. induction s as [|c s IH] using rev_ind; intros t Hs Ht Hlen E.
  - destruct t; [reflexivity|discriminate].
  - destruct (exists_last (l := t)) as (t' & d & ->).
    { intros ->. rewrite length_app in Hlen. simpl in Hlen. lia. }
    apply Forall_app in Hs as (Hs & Hc). apply Forall_app in Ht as (Ht & Hd).
    inversion Hc as [|? ? Hinc _]; subst. inversion Hd as [|? ? Hind _]; subst.
    rewrite !posval_snoc in E. rewrite !length_app in Hlen. simpl in Hlen.
    pose proof (IndexByte_found a c Hinc) as (Hc0 & _).
    pose proof (IndexByte_found a d Hind) as (Hd0 & _).
    pose proof (IndexByte_bounds a c) as Hcb.
    pose proof (IndexByte_bounds a d) as Hdb.
    assert (Hq : posval a 0 s = posval a 0 t' /\ IndexByte a c = IndexByte a d).
    { assert (posval a 0 s = posval a 0 t') by nia. split; [assumption|nia]. }
    destruct Hq as (Hq & Hr).
    f_equal.
    + apply IH; try assumption. lia.
    + f_equal. now apply (IndexByte_inj a).
Qed.

Lemma Forall_memb a s :
  forallb (fun c => memb c a) s = true -> Forall (fun c => In c a) s.
Proof.
  intros H. apply Forall_forall. intros c Hc.
  apply memb_In. rewrite forallb_forall in H. now apply H.
Qed.

(** X5. [debase] undoes [enbase]: whenever [enbase] returns a string for a
    64-bit [x], [debase] of that string is [x], whatever the padding. *)
Theorem debase_of_enbase i x minLength body :
  valid i -> in_u64 x -> in_u64 minLength ->
  enbase i x minLength = Return body -> debase i body = x.
Proof. intros Hv Hx HL Hbody. exact (enbase_debase i x minLength body Hv Hx HL Hbody). Qed.

Lemma debase_of_enbase_witness :
  valid default /\ in_u64 8388608 /\ in_u64 7 /\
  enbase default 8388608 7 = Return (list_byte_of_string "33hqyf7") /\
  debase default (list_byte_of_string "33hqyf7") = 8388608.
Proof.
  assert (Hv : valid default) by reflexivity.
  assert (Hx : in_u64 8388608) by (unfold in_u64; lia).
  assert (HL : in_u64 7) by (unfold in_u64; lia).
  assert (HE : enbase default 8388608 7 = Return (list_byte_of_string "33hqyf7"))
    by reflexivity.
  repeat (split; [assumption|]).
  exact (debase_of_enbase default 8388608 7 _ Hv Hx HL HE).
Defined.

Lemma enbase_debase_back i t :
  valid i ->
  Forall (fun c => In c (Alphabet i)) t ->
  posval (Alphabet i) 0 t < 2 ^ 64 ->
  len t <= maxInt ->
  enbase i (debase i t) (len t) = Return t.
Proof.
  intros Hv Hall Hval Hlen. unpack_valid Hv.
  pose proof (posval_range (Alphabet i) t ltac:(lia) Hall) as Hr.
  assert (Hx : in_u64 (posval (Alphabet i) 0 t)) by (unfold in_u64; lia).
  assert (Hd : debase i t = posval (Alphabet i) 0 t).
  { rewrite debase_posval. now apply u64_small. }
  rewrite Hd.
  pose proof (len_nonneg t) as Ht.
  assert (HL : in_u64 (len t)) by (unfold in_u64, maxInt in *; lia).
  destruct (natural_spec i _ Hv Hx) as (ds & Hnat & Hds & Hlen64 & _ & _ & Hpv).
  assert (Hfit : natural_len i (posval (Alphabet i) 0 t) <= len t).
  { apply natural_len_le; try assumption. lia. }
  unfold natural_len in Hfit. rewrite Hnat in Hfit.
  rewrite (enbase_spec i _ (len t) ds a0 HL Hnat Hlen64 Ha0).
  pose proof (len_nonneg ds) as Hdn.
  destruct (Z.leb_spec (len ds) (len t)); [|lia]. cbn [andb].
  destruct (Z.leb_spec (len t - len ds) maxInt); [|lia].
  f_equal. apply (posval_inj (Alphabet i)); try assumption; try lia.
  - apply Forall_app. split; [|assumption].
    apply Forall_forall. intros c Hc. apply repeat_spec in Hc. now subst.
  - rewrite length_app, repeat_length. unfold len in *. lia.
  - rewrite posval_app, posval_zeros by assumption. rewrite Hpv. lia.
Qed.

(** X6. [enbase] undoes [debase] on every string of alphabet symbols whose
    value stays below 2^64: encoding the decoded number at the string's own
    length gives the string back.  A number therefore has exactly one
    body of each length. *)
Theorem enbase_of_debase i t :
  valid i ->
  Forall (fun c => In c (Alphabet i)) t ->
  posval (Alphabet i) 0 t < 2 ^ 64 ->
  len t <= maxInt ->
  enbase i (debase i t) (len t) = Return t.
Proof. exact (enbase_debase_back i t). Qed.

Lemma enbase_of_debase_witness :
  valid default /\
  Forall (fun c => In c (Alphabet default)) (list_byte_of_string "3k3") /\
  posval (Alphabet default) 0 (list_byte_of_string "3k3") < 2 ^ 64 /\
  len (list_byte_of_string "3k3") <= maxInt /\
  enbase default (debase default (list_byte_of_string "3k3"))
         (len (list_byte_of_string "3k3"))
  = Return (list_byte_of_string "3k3").
Proof.
  assert (Hv : valid default) by reflexivity.
  assert (Hall : Forall (fun c => In c (Alphabet default))
                        (list_byte_of_string "3k3")).
  { apply Forall_memb. reflexivity. }
  assert (Hval : posval (Alphabet default) 0 (list_byte_of_string "3k3") < 2 ^ 64)
    by reflexivity.
  assert (Hlen : len (list_byte_of_string "3k3") <= maxInt)
    by (vm_compute; discriminate).
  repeat (split; [assumption|]).
  exact (enbase_of_debase default _ Hv Hall Hval Hlen).
Defined.

(** ** Decoding *)

(** X7. The first alphabet symbol is the digit zero, and [Decode] does not
    count digits: putting any number of zero symbols between the head and
    the rest of a string changes neither the decoded value nor the flag.
    Encoded strings are therefore not unique to [Decode]. *)
Theorem Decode_leading_zeros i a0 h t k :
  index (Alphabet i) 0 = Return a0 ->
  debase i (repeat a0 k ++ t) = debase i t /\
  Decode i (h :: repeat a0 k ++ t) = Decode i (h :: t).
Proof.
  intros Ha0.
  assert (Hidx : IndexByte (Alphabet i) a0 = 0).
  { unfold index in Ha0. destruct (Alphabet i) as [|b a]; [discriminate|].
    simpl in Ha0. injection Ha0 as ->. simpl. now rewrite byte_eqb_refl. }
  assert (E : debase i (repeat a0 k ++ t) = debase i t).
  { rewrite !debase_posval, posval_app, posval_zeros by assumption.
    reflexivity. }
  split; [exact E|]. unfold Decode. now rewrite E.
Qed.

Lemma Decode_leading_zeros_witness :
  index (Alphabet default) 0 = Return x33 /\
  debase default (repeat x33 4 ++ list_byte_of_string "hqyf7")
  = debase default (list_byte_of_string "hqyf7") /\
  Decode default (x66 :: repeat x33 4 ++ list_byte_of_string "hqyf7")
  = Decode default (x66 :: list_byte_of_string "hqyf7").
Proof.
  assert (Ha0 : index (Alphabet default) 0 = Return x33) by reflexivity.
  split; [assumption|].
  exact (Decode_leading_zeros default x33 x66 (list_byte_of_string "hqyf7") 4 Ha0).
Defined.

(** X8. The round trip, where it holds: for a valid configuration, a
    [minLength] within [int], a number whose scrambled value is below
    [K^minLength] and an ASCII checksum symbol, [Encode] returns a string
    with flag [true] and [Decode] of that string returns the number with
    flag [true]. *)
Theorem Decode_of_Encode i n minLength :
  valid i -> in_u64 n -> 0 <= minLength <= maxInt ->
  scramble i n < len (Alphabet i) ^ minLength ->
  ascii_head i n ->
  exists s, Encode i n minLength = Return (s, true) /\
            Decode i s = Return (n, true).
Proof.
  intros Hv Hn HL Hlt Hascii.
  assert (HL64 : in_u64 minLength) by (unfold in_u64, maxInt in *; lia).
  destruct (valid_unpack i Hv) as (Hnd & HK & HM & HB).
  assert (Hs : in_u64 (scramble i n)) by auto with u64.
  apply Encode_Decode_fits; try assumption.
  unfold fits.
  pose proof (proj2 (natural_len_le i _ minLength Hv Hs (proj1 HL)) Hlt).
  destruct (natural_len_facts i _ Hv Hs) as (Hr & _).
  destruct (Z.leb_spec (natural_len i (scramble i n)) minLength); [|lia].
  destruct (Z.leb_spec (minLength - natural_len i (scramble i n)) maxInt);
    [reflexivity|lia].
Qed.

Lemma Decode_of_Encode_witness :
  valid default /\ in_u64 10 /\ 0 <= 5 <= maxInt /\
  scramble default 10 < len (Alphabet default) ^ 5 /\
  ascii_head default 10 /\
  exists s, Encode default 10 5 = Return (s, true) /\
            Decode default s = Return (10, true).
Proof.
  assert (Hv : valid default) by reflexivity.
  assert (Hn : in_u64 10) by (unfold in_u64; lia).
  assert (HL : 0 <= 5 <= maxInt) by (unfold maxInt; lia).
  assert (Hlt : scramble default 10 < len (Alphabet default) ^ 5) by reflexivity.
  assert (Ha : ascii_head default 10).
  { intros c Hc. vm_compute in Hc. injection Hc as <-. reflexivity. }
  repeat (split; [assumption|]).
  exact (Decode_of_Encode default 10 5 Hv Hn HL Hlt Ha).
Defined.

(** X9. [Decode] accepts only what [Encode] writes.  Take a string with an
    ASCII head and a tail of alphabet symbols whose value stays below
    2^64.  If [Decode] returns [(n, true)] for it, then the string is
    exactly the one [Encode] returns for [n] at [minLength = len tail]. *)
Theorem Decode_true_is_Encode i h t n :
  valid i ->
  byte_val h < 128 ->
  Forall (fun c => In c (Alphabet i)) t ->
  posval (Alphabet i) 0 t < 2 ^ 64 ->
  len t <= maxInt ->
  Decode i (h :: t) = Return (n, true) ->
  Encode i n (len t) = Return (h :: t, true).
Proof.
  intros Hv Hh Hall Hval Hlen HD.
  destruct (valid_unpack i Hv) as (Hnd & HK & HM & HB).
  unfold Decode in HD.
  destruct (checksum i (scramble i (debase i t))) as [c| |] eqn:Hc;
    try discriminate.
  cbn [bind] in HD. injection HD as Hn Heq.
  apply Byte.byte_dec_bl in Heq. subst c.
  assert (Hs : scramble i n = debase i t).
  { rewrite <- Hn. apply scramble_involutive; [apply debase_range|lia]. }
  unfold Encode. rewrite <- Hn at 1. rewrite Hc. cbn [bind].
  rewrite Hs, (enbase_debase_back i t Hv Hall Hval Hlen). cbn [bind].
  now rewrite string_of_byte_ascii.
Qed.

Lemma Decode_true_is_Encode_witness :
  valid default /\ byte_val x66 < 128 /\
  Forall (fun c => In c (Alphabet default)) (list_byte_of_string "hqyf7") /\
  posval (Alphabet default) 0 (list_byte_of_string "hqyf7") < 2 ^ 64 /\
  len (list_byte_of_string "hqyf7") <= maxInt /\
  Decode default (x66 :: list_byte_of_string "hqyf7") = Return (1, true) /\
  Encode default 1 (len (list_byte_of_string "hqyf7"))
  = Return (x66 :: list_byte_of_string "hqyf7", true).
Proof.
  assert (Hv : valid default) by reflexivity.
  assert (Hh : byte_val x66 < 128) by reflexivity.
  assert (Hall : Forall (fun c => In c (Alphabet default))
                        (list_byte_of_string "hqyf7")).
  { apply Forall_memb. reflexivity. }
  assert (Hval : posval (Alphabet default) 0 (list_byte_of_string "hqyf7") < 2 ^ 64)
    by reflexivity.
  assert (Hlen : len (list_byte_of_string "hqyf7") <= maxInt)
    by (vm_compute; discriminate).
  assert (HD : Decode default (x66 :: list_byte_of_string "hqyf7") = Return (1, true))
    by reflexivity.
  repeat (split; [assumption|]).
  exact (Decode_true_is_Encode default x66 _ 1 Hv Hh Hall Hval Hlen HD).
Defined.

(** X10. Under a valid configuration [Decode] returns for every string
    but the empty one, on which it panics; and for every tail there is
    exactly one head byte, an alphabet symbol, that makes the flag
    [true]. *)
Theorem Decode_domain_and_head i :
  valid i ->
  (forall s, returns (Decode i s) <-> s <> []) /\
  (forall t, exists h v,
     In h (Alphabet i) /\
     Decode i (h :: t) = Return (v, true) /\
     forall h', h' <> h -> Decode i (h' :: t) = Return (v, false)).
Proof.
  intros Hv. destruct (valid_unpack i Hv) as (Hnd & HK & HM & HB).
  split.
  - intros [|b tl]; split.
    + intros [r Hr]. discriminate.
    + congruence.
    + discriminate.
    + intros _. simpl.
      destruct (checksum_returns i (scramble i (debase i tl)) HM) as (c & Hc & _).
      rewrite Hc. eexists. reflexivity.
  - intros t.
    destruct (checksum_returns i (scramble i (debase i t)) HM) as (c & Hc & Hin).
    exists c, (scramble i (debase i t)). split; [assumption|].
    unfold Decode. rewrite Hc. cbn [bind]. split.
    + now rewrite byte_eqb_refl.
    + intros h' Hne. now rewrite byte_eqb_neq by congruence.
Qed.

Lemma Decode_domain_and_head_witness :
  valid default /\
  (forall s, returns (Decode default s) <-> s <> []) /\
  (forall t, exists h v,
     In h (Alphabet default) /\
     Decode default (h :: t) = Return (v, true) /\
     forall h', h' <> h -> Decode default (h' :: t) = Return (v, false)).
Proof.
  assert (Hv : valid default) by reflexivity.
  split; [assumption|].
  exact (Decode_domain_and_head default Hv).
Defined.

(** ** More on the scrambler *)

(** X11. [scramble] works inside the block: the part of [n] above the low
    [BlockSize] bits is returned unchanged, so a number below
    [2^BlockSize] stays below [2^BlockSize]. *)
Theorem scramble_keeps_block i n :
  in_u64 n -> 0 <= BlockSize i <= 64 ->
  Z.shiftr (scramble i n) (BlockSize i) = Z.shiftr n (BlockSize i) /\
  (n < 2 ^ BlockSize i -> scramble i n < 2 ^ BlockSize i).
Proof.
  intros Hn HB.
  assert (E : Z.shiftr (scramble i n) (BlockSize i) = Z.shiftr n (BlockSize i)).
  { apply Z.bits_inj'. intros j Hj. rewrite !Z.shiftr_spec by assumption.
    rewrite scramble_bits by (assumption || lia).
    destruct (Z.ltb_spec (j + BlockSize i) (BlockSize i)); [lia|reflexivity]. }
  split; [exact E|].
  intros Hlt. pose proof (scramble_range i n Hn HB) as Hs.
  rewrite !Z.shiftr_div_pow2 in E by lia.
  assert (Hp : 0 < 2 ^ BlockSize i) by (apply Z.pow_pos_nonneg; lia).
  rewrite (Z.div_small n) in E by (unfold in_u64 in Hn; lia).
  apply Z.div_small_iff in E; [|lia].
  unfold in_u64 in Hs. lia.
Qed.

Lemma scramble_keeps_block_witness :
  in_u64 5 /\ 0 <= BlockSize default <= 64 /\
  Z.shiftr (scramble default 5) (BlockSize default)
  = Z.shiftr 5 (BlockSize default) /\
  (5 < 2 ^ BlockSize default -> scramble default 5 < 2 ^ BlockSize default).
Proof.
  assert (Hn : in_u64 5) by (unfold in_u64; lia).
  assert (HB : 0 <= BlockSize default <= 64) by (cbn; unfold DefaultBlockSize; lia).
  repeat (split; [assumption|]).
  exact (scramble_keeps_block default 5 Hn HB).
Defined.

(** X12. A block of the full 64 bits is still handled: with
    [BlockSize = 64] the shift [1 << 64] gives 0, the mask is all ones,
    and [scramble] reverses the whole word and is its own inverse. *)
Theorem scramble_full_width i n :
  BlockSize i = 64 -> in_u64 n ->
  (forall k, 0 <= k < 64 ->
     Z.testbit (scramble i n) k = Z.testbit n (63 - k)) /\
  scramble i (scramble i n) = n.
Proof.
  intros HB Hn. split.
  - intros k Hk. rewrite scramble_bits by (assumption || lia).
    rewrite HB. destruct (Z.ltb_spec k 64); [|lia]. f_equal. lia.
  - apply scramble_involutive; [assumption|lia].
Qed.

Lemma scramble_full_width_witness :
  BlockSize {| Alphabet := DefaultAlphabet; BlockSize := 64; Checksum := 29 |} = 64 /\
  in_u64 1 /\
  (forall k, 0 <= k < 64 ->
     Z.testbit
       (scramble {| Alphabet := DefaultAlphabet; BlockSize := 64; Checksum := 29 |} 1) k
     = Z.testbit 1 (63 - k)) /\
  scramble {| Alphabet := DefaultAlphabet; BlockSize := 64; Checksum := 29 |}
    (scramble {| Alphabet := DefaultAlphabet; BlockSize := 64; Checksum := 29 |} 1)
  = 1.
Proof.
  assert (HB : BlockSize {| Alphabet := DefaultAlphabet; BlockSize := 64;
                            Checksum := 29 |} = 64) by reflexivity.
  assert (Hn : in_u64 1) by (unfold in_u64; lia).
  repeat (split; [assumption|]).
  exact (scramble_full_width _ 1 HB Hn).
Defined.

Lemma scramble_loop_lost B n k : forall bit,
  128 <= B < 2 ^ 64 -> 0 <= bit -> bit + Z.of_nat k = B ->
  scramble_loop B n k bit 0 = 0.
Proof.
  induction k as [|k IH]; intros bit HB Hbit Hk; [reflexivity|].
  cbn [scramble_loop].
  destruct (Z.eqb_spec (Z.land n (shl64 1 bit)) 0) as [E|E].
  - apply IH; lia.
  - assert (Hlow : bit < 64).
    { destruct (Z.lt_ge_cases bit 64) as [|Hge]; [assumption|exfalso].
      apply E. unfold shl64. destruct (Z.ltb_spec bit 64); [lia|].
      apply Z.land_0_r. }
    rewrite (u64_small (B - bit)) by (unfold in_u64; lia).
    rewrite (u64_small (B - bit - 1)) by (unfold in_u64; lia).
    unfold shl64. destruct (Z.ltb_spec (B - bit - 1) 64); [lia|].
    simpl. apply IH; lia.
Qed.

(** X13. A block size of 128 or more loses the number: every shift count
    the loop uses is 64 or more, a shift by 64 or more gives 0 in Go, and
    [scramble] returns 0 for every input. *)
Theorem scramble_oversized_block i n :
  128 <= BlockSize i < 2 ^ 64 -> scramble i n = 0.
Proof.
  intros HB. unfold scramble.
  assert (Hm : Z.land n (not64 (u64 (shl64 1 (BlockSize i) - 1))) = 0).
  { unfold shl64. destruct (Z.ltb_spec (BlockSize i) 64); [lia|].
    change (not64 (u64 (0 - 1))) with 0. apply Z.land_0_r. }
  rewrite Hm. apply scramble_loop_lost; lia.
Qed.

Lemma scramble_oversized_block_witness :
  128 <= BlockSize {| Alphabet := DefaultAlphabet; BlockSize := 200; Checksum := 29 |}
      < 2 ^ 64 /\
  scramble {| Alphabet := DefaultAlphabet; BlockSize := 200; Checksum := 29 |} 12345
  = 0.
Proof.
  assert (HB : 128 <= BlockSize {| Alphabet := DefaultAlphabet; BlockSize := 200;
                                   Checksum := 29 |} < 2 ^ 64) by (cbn; lia).
  split; [assumption|].
  exact (scramble_oversized_block _ 12345 HB).
Defined.

(** ** Configurations that make the helpers fail *)

(** X14. [checksum] is free of panics on all 64-bit inputs exactly when
    [0 < Checksum <= len(Alphabet)]: a modulus of 0 divides by zero, and a
    modulus above the alphabet length indexes past its end (already for
    [n = len(Alphabet)]). *)
Theorem checksum_panic_free i :
  0 <= Checksum i -> len (Alphabet i) < 2 ^ 64 ->
  ((forall n, in_u64 n -> returns (checksum i n))
   <-> 0 < Checksum i <= len (Alphabet i)).
Proof.
  intros HM HK. pose proof (len_nonneg (Alphabet i)) as HK0. split.
  - intros Hall.
    destruct (Z.eq_dec (Checksum i) 0) as [E|E].
    + destruct (Hall 0 ltac:(unfold in_u64; lia)) as [c Hc].
      unfold checksum in Hc. rewrite E in Hc. discriminate.
    + split; [lia|].
      destruct (Z.le_gt_cases (Checksum i) (len (Alphabet i))) as [|Hgt];
        [assumption|exfalso].
      destruct (Hall (len (Alphabet i)) ltac:(unfold in_u64; lia)) as [c Hc].
      unfold checksum, index in Hc.
      destruct (Z.eqb_spec (Checksum i) 0); [lia|].
      rewrite Z.mod_small in Hc by lia.
      unfold len in Hc. rewrite Nat2Z.id in Hc.
      assert (Hn : nth_error (Alphabet i) (List.length (Alphabet i)) = None)
        by (apply nth_error_None; lia).
      rewrite Hn in Hc. discriminate.
  - intros Hok n _. destruct (checksum_returns i n Hok) as (c & Hc & _).
    now exists c.
Qed.

Lemma checksum_panic_free_witness :
  0 <= Checksum default /\ len (Alphabet default) < 2 ^ 64 /\
  ((forall n, in_u64 n -> returns (checksum default n))
   <-> 0 < Checksum default <= len (Alphabet default)).
Proof.
  assert (HM : 0 <= Checksum default) by (cbn; unfold DefaultChecksum; lia).
  assert (HK : len (Alphabet default) < 2 ^ 64) by reflexivity.
  repeat (split; [assumption|]).
  exact (checksum_panic_free default HM HK).
Defined.

Lemma enbase_loop_terminates a n : forall fuel x chars,
  2 <= n -> 0 <= x < 2 ^ Z.of_nat fuel ->
  enbase_loop fuel a n x chars <> Diverge.
Proof.
  induction fuel as [|fuel IH]; intros x chars Hn Hx.
  - simpl in Hx. simpl. destruct (Z.gtb_spec x 0); [lia|discriminate].
  - rewrite enbase_loop_S.
    destruct (x >? 0); [|discriminate].
    destruct (n =? 0); [discriminate|].
    unfold index. destruct (nth_error a (Z.to_nat (x mod n))) as [d|];
      cbn [bind]; [|discriminate].
    apply IH; [assumption|].
    split; [apply Z.div_pos; lia|].
    apply Z.div_lt_upper_bound; [lia|].
    rewrite Nat2Z.inj_succ, Z.pow_succ_r in Hx by lia. nia.
Qed.

(** X15. What [enbase] does with an alphabet too small to count in.  An
    empty alphabet makes it panic for every [x] (division by zero in the
    loop, or [Alphabet[0]] out of range when [x = 0]).  An alphabet of one
    symbol makes the loop spin for ever on every [x > 0], whatever the
    fuel.  With two or more symbols the loop always ends. *)
Theorem enbase_small_alphabet i x minLength :
  in_u64 x ->
  (Alphabet i = [] ->
   enbase i x minLength
   = if x =? 0 then Panic IndexOutOfRange else Panic DivideByZero) /\
  (forall c, Alphabet i = [c] -> 0 < x ->
   (forall fuel chars, enbase_loop fuel [c] 1 x chars = Diverge) /\
   enbase i x minLength = Diverge) /\
  (2 <= len (Alphabet i) -> enbase i x minLength <> Diverge).
Proof.
  intros Hx. split; [|split].
  - intros E. unfold enbase, natural. rewrite E. simpl.
    destruct (Z.gtb_spec x 0), (Z.eqb_spec x 0); try reflexivity;
      unfold in_u64 in Hx; lia.
  - intros c E Hpos. split.
    + intros fuel chars. now apply enbase_loop_spins.
    + unfold enbase, natural. rewrite E. change (len [c]) with 1.
      now rewrite enbase_loop_spins.
  - intros HK. unfold enbase, natural.
    pose proof (enbase_loop_terminates (Alphabet i) (len (Alphabet i)) 64 x [] HK Hx)
      as Hterm.
    destruct (enbase_loop 64 (Alphabet i) (len (Alphabet i)) x []) as [ds| |];
      cbn [bind]; try congruence; try discriminate.
    unfold index. destruct (nth_error (Alphabet i) (Z.to_nat 0)) as [p|];
      cbn [bind]; [|discriminate].
    unfold leftPad, times. destruct (_ >? maxInt); cbn [bind]; discriminate.
Qed.

Lemma enbase_small_alphabet_witness :
  in_u64 7 /\
  (Alphabet {| Alphabet := [x61]; BlockSize := 0; Checksum := 1 |} = [] ->
   enbase {| Alphabet := [x61]; BlockSize := 0; Checksum := 1 |} 7 3
   = if 7 =? 0 then Panic IndexOutOfRange else Panic DivideByZero) /\
  (forall c, Alphabet {| Alphabet := [x61]; BlockSize := 0; Checksum := 1 |} = [c] ->
   0 < 7 ->
   (forall fuel chars, enbase_loop fuel [c] 1 7 chars = Diverge) /\
   enbase {| Alphabet := [x61]; BlockSize := 0; Checksum := 1 |} 7 3 = Diverge) /\
  (2 <= len (Alphabet {| Alphabet := [x61]; BlockSize := 0; Checksum := 1 |}) ->
   enbase {| Alphabet := [x61]; BlockSize := 0; Checksum := 1 |} 7 3 <> Diverge).
Proof.
  assert (Hx : in_u64 7) by (unfold in_u64; lia).
  split; [assumption|].
  exact (enbase_small_alphabet {| Alphabet := [x61]; BlockSize := 0; Checksum := 1 |}
           7 3 Hx).
Defined.

(** ** Padding and small numbers *)

Lemma fits_below_pow i x minLength :
  valid i -> in_u64 x -> 0 <= minLength <= maxInt ->
  x < len (Alphabet i) ^ minLength -> fits i x minLength = true.
Proof.
  intros Hv Hx HL Hlt. unfold fits.
  pose proof (proj2 (natural_len_le i x minLength Hv Hx (proj1 HL)) Hlt).
  destruct (natural_len_facts i x Hv Hx) as (Hr & _).
  destruct (Z.leb_spec (natural_len i x) minLength); [|lia].
  destruct (Z.leb_spec (minLength - natural_len i x) maxInt); [reflexivity|lia].
Qed.

Lemma ascii_alphabet_head i n : ascii_alphabet i -> ascii_head i n.
Proof.
  intros Ha c Hc. unfold checksum, index in Hc.
  destruct (Checksum i =? 0); [discriminate|].
  destruct (nth_error _ _) as [d|] eqn:E; [|discriminate].
  injection Hc as ->. apply nth_error_In in E.
  unfold ascii_alphabet in Ha. rewrite forallb_forall in Ha.
  apply Z.ltb_lt. now apply Ha.
Qed.

(** X16. A longer [minLength] only adds zero symbols in front: if
    [enbase] returns [body] at [minLength], then at [minLength + k] it
    returns [body] behind [k] copies of the first alphabet symbol. *)
Theorem enbase_longer i x minLength k body a0 :
  valid i -> in_u64 x -> 0 <= minLength -> 0 <= k ->
  minLength + k <= maxInt ->
  index (Alphabet i) 0 = Return a0 ->
  enbase i x minLength = Return body ->
  enbase i x (minLength + k) = Return (repeat a0 (Z.to_nat k) ++ body).
Proof.
  intros Hv Hx HL Hk Hmax Ha0 Hbody.
  assert (HL1 : in_u64 minLength) by (unfold in_u64, maxInt in *; lia).
  assert (HL2 : in_u64 (minLength + k)) by (unfold in_u64, maxInt in *; lia).
  destruct (natural_spec i _ Hv Hx) as (ds & Hnat & _ & Hlen & _).
  pose proof (len_nonneg ds) as Hds.
  rewrite (enbase_spec i _ minLength ds a0 HL1 Hnat Hlen Ha0) in Hbody.
  rewrite (enbase_spec i _ (minLength + k) ds a0 HL2 Hnat Hlen Ha0).
  destruct (Z.leb_spec (len ds) minLength); cbn [andb] in Hbody; [|discriminate].
  destruct (_ <=? maxInt); [|discriminate]. injection Hbody as <-.
  destruct (Z.leb_spec (len ds) (minLength + k)); [|lia]. cbn [andb].
  destruct (Z.leb_spec (minLength + k - len ds) maxInt); [|lia].
  f_equal. rewrite app_assoc, <- repeat_app. f_equal. f_equal. lia.
Qed.

Lemma enbase_longer_witness :
  valid default /\ in_u64 8388608 /\ 0 <= 5 /\ 0 <= 2 /\ 5 + 2 <= maxInt /\
  index (Alphabet default) 0 = Return x33 /\
  enbase default 8388608 5 = Return (list_byte_of_string "hqyf7") /\
  enbase default 8388608 (5 + 2)
  = Return (repeat x33 (Z.to_nat 2) ++ list_byte_of_string "hqyf7").
Proof.
  assert (Hv : valid default) by reflexivity.
  assert (Hx : in_u64 8388608) by (unfold in_u64; lia).
  assert (H5 : 0 <= 5) by lia.
  assert (H2 : 0 <= 2) by lia.
  assert (Hm : 5 + 2 <= maxInt) by (unfold maxInt; lia).
  assert (Ha0 : index (Alphabet default) 0 = Return x33) by reflexivity.
  assert (HE : enbase default 8388608 5 = Return (list_byte_of_string "hqyf7"))
    by reflexivity.
  repeat (split; [assumption|]).
  exact (enbase_longer default 8388608 5 2 _ x33 Hv Hx H5 H2 Hm Ha0 HE).
Defined.

(** X17. Numbers inside the block always work: under a valid
    configuration with an ASCII alphabet, if [2^BlockSize] is at most
    [K^minLength], every [n] below [2^BlockSize] is encoded and decoded
    back with [ok = true]. *)
Theorem block_numbers_round_trip i n minLength :
  valid i -> ascii_alphabet i -> 0 <= minLength <= maxInt ->
  2 ^ BlockSize i <= len (Alphabet i) ^ minLength ->
  0 <= n < 2 ^ BlockSize i ->
  exists s, Encode i n minLength = Return (s, true) /\
            Decode i s = Return (n, true).
Proof.
  intros Hv Ha HL Hpow Hn.
  destruct (valid_unpack i Hv) as (Hnd & HK & HM & HB).
  assert (Hn64 : in_u64 n).
  { unfold in_u64. split; [lia|].
    eapply Z.lt_le_trans; [apply Hn|]. apply Z.pow_le_mono_r; lia. }
  assert (HL64 : in_u64 minLength) by (unfold in_u64, maxInt in *; lia).
  assert (Hs : in_u64 (scramble i n)) by auto with u64.
  assert (Hblock : 0 <= BlockSize i <= 64) by lia.
  assert (Hlt : scramble i n < 2 ^ BlockSize i).
  { assert (E : Z.shiftr (scramble i n) (BlockSize i) = Z.shiftr n (BlockSize i)).
    { apply Z.bits_inj'. intros j Hj. rewrite !Z.shiftr_spec by assumption.
      rewrite scramble_bits by (assumption || lia).
      destruct (Z.ltb_spec (j + BlockSize i) (BlockSize i)); [lia|reflexivity]. }
    rewrite !Z.shiftr_div_pow2 in E by lia.
    rewrite (Z.div_small n) in E by lia.
    assert (Hp : 0 < 2 ^ BlockSize i) by (apply Z.pow_pos_nonneg; lia).
    apply Z.div_small_iff in E; [|lia]. unfold in_u64 in Hs. lia. }
  apply Encode_Decode_fits; try assumption.
  - apply fits_below_pow; try assumption. lia.
  - now apply ascii_alphabet_head.
Qed.

Lemma block_numbers_round_trip_witness :
  valid default /\ ascii_alphabet default /\ 0 <= 5 <= maxInt /\
  2 ^ BlockSize default <= len (Alphabet default) ^ 5 /\
  0 <= 16777215 < 2 ^ BlockSize default /\
  exists s, Encode default 16777215 5 = Return (s, true) /\
            Decode default s = Return (16777215, true).
Proof.
  assert (Hv : valid default) by reflexivity.
  assert (Ha : ascii_alphabet default) by reflexivity.
  assert (HL : 0 <= 5 <= maxInt) by (unfold maxInt; lia).
  assert (Hp : 2 ^ BlockSize default <= len (Alphabet default) ^ 5)
    by (vm_compute; discriminate).
  assert (Hn : 0 <= 16777215 < 2 ^ BlockSize default)
    by (split; vm_compute; (discriminate || reflexivity)).
  repeat (split; [assumption|]).
  exact (block_numbers_round_trip default 16777215 5 Hv Ha HL Hp Hn).
Defined.

(** ** The stand-alone variant *)

(** X18. The round trip in the stand-alone variant, whose flags are error
    flags: under the conditions of the round trip above, [Encode] returns
    a string with [false] and [Decode] of it returns the number with
    [false]. *)
Theorem Standalone_round_trip i n minLength :
  valid i -> in_u64 n -> 0 <= minLength <= maxInt ->
  scramble i n < len (Alphabet i) ^ minLength ->
  ascii_head i n ->
  exists s, Standalone.Encode i n minLength = Return (s, false) /\
            Standalone.Decode i s = Return (n, false).
Proof.
  intros Hv Hn HL Hlt Hascii.
  assert (HL64 : in_u64 minLength) by (unfold in_u64, maxInt in *; lia).
  destruct (valid_unpack i Hv) as (Hnd & HK & HM & HB).
  assert (Hs : in_u64 (scramble i n)) by auto with u64.
  destruct (Encode_Decode_fits i n minLength Hv Hn HL64
              (fits_below_pow i _ minLength Hv Hs HL Hlt) Hascii)
    as (s & HE & HD).
  exists s. split.
  - destruct (Encode_inv _ _ _ _ _ HE) as (c & body & Hc & Hbody & -> & _).
    unfold Standalone.Encode. rewrite Hc, Hbody. reflexivity.
  - rewrite Standalone_Decode_flag, HD. reflexivity.
Qed.

Lemma Standalone_round_trip_witness :
  valid default /\ in_u64 10 /\ 0 <= 5 <= maxInt /\
  scramble default 10 < len (Alphabet default) ^ 5 /\
  ascii_head default 10 /\
  exists s, Standalone.Encode default 10 5 = Return (s, false) /\
            Standalone.Decode default s = Return (10, false).
Proof.
  assert (Hv : valid default) by reflexivity.
  assert (Hn : in_u64 10) by (unfold in_u64; lia).
  assert (HL : 0 <= 5 <= maxInt) by (unfold maxInt; lia).
  assert (Hlt : scramble default 10 < len (Alphabet default) ^ 5) by reflexivity.
  assert (Ha : ascii_head default 10)
    by (apply ascii_alphabet_head; reflexivity).
  repeat (split; [assumption|]).
  exact (Standalone_round_trip default 10 5 Hv Hn HL Hlt Ha).
Defined.

(** ** The benchmark loop *)

Lemma scramble_lt_block i n :
  0 <= BlockSize i <= 64 -> 0 <= n < 2 ^ BlockSize i ->
  scramble i n < 2 ^ BlockSize i.
Proof.
  intros HB Hn.
  assert (Hn64 : in_u64 n).
  { unfold in_u64. split; [lia|].
    eapply Z.lt_le_trans; [apply Hn|]. apply Z.pow_le_mono_r; lia. }
  pose proof (scramble_range i n Hn64 HB) as Hs.
  assert (E : Z.shiftr (scramble i n) (BlockSize i) = Z.shiftr n (BlockSize i)).
  { apply Z.bits_inj'. intros j Hj. rewrite !Z.shiftr_spec by assumption.
    rewrite scramble_bits by (assumption || lia).
    destruct (Z.ltb_spec (j + BlockSize i) (BlockSize i)); [lia|reflexivity]. }
  rewrite !Z.shiftr_div_pow2 in E by lia.
  rewrite (Z.div_small n) in E by lia.
  assert (Hp : 0 < 2 ^ BlockSize i) by (apply Z.pow_pos_nonneg; lia).
  apply Z.div_small_iff in E; [|lia]. unfold in_u64 in Hs. lia.
Qed.

Section Benchmark.

Variable ie : IDEncoder.
Hypothesis ie_valid : valid ie.
Hypothesis ie_ascii : ascii_alphabet ie.

Let K := len (Alphabet ie).

Lemma MinLength_int : 0 <= MinLength <= maxInt.
Proof. unfold MinLength, maxInt. lia. Qed.

Lemma benchmark_step_ok k i :
  in_u64 i -> scramble ie i < K ^ MinLength ->
  benchmark_loop ie (S k) i = benchmark_loop ie k (i + 1).
Proof.
  intros Hi Hlt.
  destruct (valid_unpack ie ie_valid) as (Hnd & HK & HM & HB).
  assert (Hs : in_u64 (scramble ie i)) by auto with u64.
  assert (HL : in_u64 MinLength) by (unfold in_u64, MinLength; lia).
  destruct (Encode_Decode_fits ie i MinLength ie_valid Hi HL
              (fits_below_pow ie _ MinLength ie_valid Hs MinLength_int Hlt)
              (ascii_alphabet_head ie i ie_ascii))
    as (s & HE & HD).
  cbn [benchmark_loop]. rewrite HE. cbn [bind fst]. rewrite HD.
  cbn [bind fst snd negb orb]. now rewrite Z.eqb_refl.
Qed.

Lemma benchmark_step_panic k i :
  in_u64 i -> K ^ MinLength <= scramble ie i ->
  benchmark_loop ie (S k) i = Panic MakesliceLen.
Proof.
  intros Hi Hge.
  destruct (valid_unpack ie ie_valid) as (Hnd & HK & HM & HB).
  assert (Hs : in_u64 (scramble ie i)) by auto with u64.
  assert (HL : in_u64 MinLength) by (unfold in_u64, MinLength; lia).
  cbn [benchmark_loop].
  rewrite Encode_panics_when_longer; try assumption; [reflexivity|].
  destruct (Z.lt_ge_cases MinLength (natural_len ie (scramble ie i)))
    as [|Hle]; [assumption|exfalso].
  apply (natural_len_le ie _ MinLength ie_valid Hs (proj1 MinLength_int)) in Hle.
  fold K in Hle. lia.
Qed.

Lemma benchmark_loop_outcome k : forall i,
  0 <= i -> i + Z.of_nat k <= 2 ^ 64 ->
  ((forall j, i <= j < i + Z.of_nat k -> scramble ie j < K ^ MinLength) ->
   benchmark_loop ie k i = Return Finished) /\
  (forall j, i <= j < i + Z.of_nat k -> K ^ MinLength <= scramble ie j ->
   benchmark_loop ie k i = Panic MakesliceLen).
Proof.
  induction k as [|k IH]; intros i Hi Hk.
  - split; [reflexivity|]. intros j Hj. lia.
  - assert (Hi64 : in_u64 i) by (unfold in_u64; lia).
    destruct (IH (i + 1)) as (IHok & IHpanic); [lia|lia|].
    destruct (Z.lt_ge_cases (scramble ie i) (K ^ MinLength)) as [Hlt|Hge].
    + rewrite (benchmark_step_ok k i Hi64 Hlt). split.
      * intros Hall. apply IHok. intros j Hj. apply Hall. lia.
      * intros j Hj Hbad. destruct (Z.eq_dec j i) as [->|Hne]; [lia|].
        apply (IHpanic j); [lia|assumption].
    + rewrite (benchmark_step_panic k i Hi64 Hge). split.
      * intros Hall. specialize (Hall i ltac:(lia)). lia.
      * reflexivity.
Qed.

Lemma benchmark_loop_two_ends k : forall i,
  0 <= i -> i + Z.of_nat k <= 2 ^ 64 ->
  benchmark_loop ie k i = Return Finished \/
  benchmark_loop ie k i = Panic MakesliceLen.
Proof.
  induction k as [|k IH]; intros i Hi Hk; [now left|].
  assert (Hi64 : in_u64 i) by (unfold in_u64; lia).
  destruct (Z.lt_ge_cases (scramble ie i) (K ^ MinLength)) as [Hlt|Hge].
  - rewrite (benchmark_step_ok k i Hi64 Hlt). apply IH; lia.
  - right. exact (benchmark_step_panic k i Hi64 Hge).
Qed.

End Benchmark.

(** X19. The benchmark loop of [main], for a valid configuration with an
    ASCII alphabet: it finishes when the scrambled value of every number
    below the count is under [K^MinLength]; if one of them is not, the
    loop panics inside [Encode]; and it never reaches the line
    "Something is weird". *)
Theorem benchmark_outcome ie count :
  valid ie -> ascii_alphabet ie -> 0 <= count < 2 ^ 64 ->
  ((forall j, 0 <= j < count ->
      scramble ie j < len (Alphabet ie) ^ MinLength) ->
   benchmark ie count = Return Finished) /\
  (forall j, 0 <= j < count ->
     len (Alphabet ie) ^ MinLength <= scramble ie j ->
     benchmark ie count = Panic MakesliceLen) /\
  (forall i e d, benchmark ie count <> Return (Weird i e d)).
Proof.
  intros Hv Ha Hc. unfold benchmark.
  destruct (benchmark_loop_outcome ie Hv Ha (Z.to_nat count) 0)
    as (Hok & Hpanic); [lia|rewrite Z2Nat.id; lia|].
  rewrite Z2Nat.id in Hok, Hpanic by lia. simpl in Hok, Hpanic.
  split; [exact Hok|]. split; [exact Hpanic|].
  intros i e d Hw.
  destruct (benchmark_loop_two_ends ie Hv Ha (Z.to_nat count) 0) as [E|E];
    [lia|rewrite Z2Nat.id; lia| |]; rewrite E in Hw; discriminate.
Qed.

Lemma benchmark_outcome_witness :
  valid default /\ ascii_alphabet default /\ 0 <= 10 < 2 ^ 64 /\
  ((forall j, 0 <= j < 10 ->
      scramble default j < len (Alphabet default) ^ MinLength) ->
   benchmark default 10 = Return Finished) /\
  (forall j, 0 <= j < 10 ->
     len (Alphabet default) ^ MinLength <= scramble default j ->
     benchmark default 10 = Panic MakesliceLen) /\
  (forall i e d, benchmark default 10 <> Return (Weird i e d)).
Proof.
  assert (Hv : valid default) by reflexivity.
  assert (Ha : ascii_alphabet default) by reflexivity.
  assert (Hc : 0 <= 10 < 2 ^ 64) by lia.
  repeat (split; [assumption|]).
  exact (benchmark_outcome default 10 Hv Ha Hc).
Defined.

(** X20. As [main] builds the encoder (block size 24, modulus 29, the
    alphabet from the command line), the benchmark finishes for every
    count up to 2^24, provided the alphabet is duplicate-free, ASCII and
    has at least 29 symbols: the numbers below 2^24 stay below 2^24 when
    scrambled, and 2^24 is less than 29^5. *)
Theorem benchmark_up_to_block ie count :
  BlockSize ie = DefaultBlockSize -> Checksum ie = DefaultChecksum ->
  valid ie -> ascii_alphabet ie ->
  0 <= count <= 2 ^ 24 ->
  benchmark ie count = Return Finished.
Proof.
  intros HBs HCs Hv Ha Hc. unfold benchmark.
  destruct (valid_unpack ie Hv) as (Hnd & HK & HM & HB).
  destruct (benchmark_loop_outcome ie Hv Ha (Z.to_nat count) 0)
    as (Hok & _); [lia|rewrite Z2Nat.id; lia|].
  apply Hok. intros j Hj. rewrite Z2Nat.id in Hj by lia.
  rewrite HCs in HM. unfold DefaultChecksum in HM.
  assert (Hblock : scramble ie j < 2 ^ BlockSize ie).
  { apply scramble_lt_block; [lia|]. rewrite HBs. unfold DefaultBlockSize. lia. }
  rewrite HBs in Hblock. unfold DefaultBlockSize in Hblock.
  assert (Hpow : 29 ^ MinLength <= len (Alphabet ie) ^ MinLength)
    by (apply Z.pow_le_mono_l; lia).
  unfold MinLength in *. lia.
Qed.

Lemma benchmark_up_to_block_witness :
  BlockSize readme = DefaultBlockSize /\ Checksum readme = DefaultChecksum /\
  valid readme /\ ascii_alphabet readme /\
  0 <= 1000 <= 2 ^ 24 /\
  benchmark readme 1000 = Return Finished.
Proof.
  assert (HB : BlockSize readme = DefaultBlockSize) by reflexivity.
  assert (HC : Checksum readme = DefaultChecksum) by reflexivity.
  assert (Hv : valid readme) by reflexivity.
  assert (Ha : ascii_alphabet readme) by reflexivity.
  assert (Hc : 0 <= 1000 <= 2 ^ 24) by lia.
  split; [exact HB|]. split; [exact HC|]. split; [exact Hv|].
  split; [exact Ha|]. split; [exact Hc|].
  exact (benchmark_up_to_block readme 1000 HB HC Hv Ha Hc).
Defined.

Example benchmark_default_limit count :
  16777219 < count < 2 ^ 64 -> benchmark default count = Panic MakesliceLen.
Proof.
  intros Hc. unfold benchmark.
  destruct (benchmark_loop_outcome default eq_refl eq_refl (Z.to_nat count) 0)
    as (_ & Hpanic); [lia|rewrite Z2Nat.id; lia|].
  apply (Hpanic 16777219); [rewrite Z2Nat.id; lia|].
  vm_compute. discriminate.
Qed.

(** ** The cases of [main] *)

(** X21. With a minimum length of 0 or less and no number to encode,
    [main] always takes the decode case: the benchmark, the random
    alphabet and the usage text cannot be reached, and with no string to
    decode it calls [Decode] on the empty string, which panics. *)
Theorem dispatch_nonpositive_length f :
  f_encode f <= 0 -> f_length f <= 0 ->
  dispatch f = RunDecode (Decode (cli_encoder f) (f_decode f)) /\
  (f_decode f = [] -> dispatch f = RunDecode (Panic SliceBounds)).
Proof.
  intros He HL. pose proof (len_nonneg (f_decode f)) as Hd.
  assert (E : dispatch f = RunDecode (Decode (cli_encoder f) (f_decode f))).
  { unfold dispatch. cbv zeta.
    destruct (Z.gtb_spec (f_encode f) 0); [lia|].
    destruct (Z.geb_spec (len (f_decode f)) (f_length f)); [reflexivity|lia]. }
  split; [exact E|]. intros Hnil. rewrite E, Hnil. reflexivity.
Qed.

Lemma dispatch_nonpositive_length_witness :
  f_encode {| f_alphabet := DefaultAlphabet; f_length := 0; f_encode := 0;
              f_decode := []; f_benchmark := 100; f_random := false |} <= 0 /\
  f_length {| f_alphabet := DefaultAlphabet; f_length := 0; f_encode := 0;
              f_decode := []; f_benchmark := 100; f_random := false |} <= 0 /\
  dispatch {| f_alphabet := DefaultAlphabet; f_length := 0; f_encode := 0;
              f_decode := []; f_benchmark := 100; f_random := false |}
  = RunDecode
      (Decode (cli_encoder
                 {| f_alphabet := DefaultAlphabet; f_length := 0; f_encode := 0;
                    f_decode := []; f_benchmark := 100; f_random := false |})
              (f_decode
                 {| f_alphabet := DefaultAlphabet; f_length := 0; f_encode := 0;
                    f_decode := []; f_benchmark := 100; f_random := false |})) /\
  (f_decode {| f_alphabet := DefaultAlphabet; f_length := 0; f_encode := 0;
               f_decode := []; f_benchmark := 100; f_random := false |} = [] ->
   dispatch {| f_alphabet := DefaultAlphabet; f_length := 0; f_encode := 0;
               f_decode := []; f_benchmark := 100; f_random := false |}
   = RunDecode (Panic SliceBounds)).
Proof.
  assert (He : f_encode {| f_alphabet := DefaultAlphabet; f_length := 0;
                           f_encode := 0; f_decode := []; f_benchmark := 100;
                           f_random := false |} <= 0) by (simpl; lia).
  assert (HL : f_length {| f_alphabet := DefaultAlphabet; f_length := 0;
                           f_encode := 0; f_decode := []; f_benchmark := 100;
                           f_random := false |} <= 0) by (simpl; lia).
  repeat (split; [assumption|]).
  exact (dispatch_nonpositive_length _ He HL).
Defined.

(** X22. A negative minimum length with a number to encode: [main]
    converts the length with [uint64(...)], which turns it into a value of
    2^63 or more, and [Encode] panics in [make] because no padding of that
    size fits [int] (for lengths from -1 down to -(2^63 - 64), with a
    valid alphabet). *)
Theorem dispatch_negative_length f :
  valid (cli_encoder f) ->
  0 < f_encode f < 2 ^ 63 ->
  - (2 ^ 63 - 64) <= f_length f < 0 ->
  dispatch f = RunEncode (Panic MakesliceLen).
Proof.
  intros Hv He HL. unfold dispatch. cbv zeta.
  destruct (Z.gtb_spec (f_encode f) 0); [|lia]. f_equal.
  assert (Hn : in_u64 (u64 (f_encode f))) by apply u64_range.
  assert (HL64 : in_u64 (u64 (f_length f))) by apply u64_range.
  assert (EL : u64 (f_length f) = f_length f + 2 ^ 64).
  { unfold u64. symmetry. apply Z.mod_unique with (q := -1); lia. }
  destruct (valid_unpack _ Hv) as (Hnd & HK & HM & HB).
  assert (Hs : in_u64 (scramble (cli_encoder f) (u64 (f_encode f))))
    by auto with u64.
  destruct (Encode_spec _ _ _ Hv Hn HL64)
    as (c & a0 & ds & _ & _ & _ & _ & _ & HE).
  rewrite HE. unfold fits.
  destruct (natural_len_facts _ _ Hv Hs) as (Hr & _).
  rewrite EL. unfold maxInt.
  destruct (Z.leb_spec (f_length f + 2 ^ 64
                        - natural_len (cli_encoder f)
                            (scramble (cli_encoder f) (u64 (f_encode f))))
                       (2 ^ 63 - 1)); [lia|].
  now rewrite andb_false_r.
Qed.

Lemma dispatch_negative_length_witness :
  valid (cli_encoder {| f_alphabet := DefaultAlphabet; f_length := -1;
                        f_encode := 7; f_decode := []; f_benchmark := 0;
                        f_random := false |}) /\
  0 < f_encode {| f_alphabet := DefaultAlphabet; f_length := -1;
                  f_encode := 7; f_decode := []; f_benchmark := 0;
                  f_random := false |} < 2 ^ 63 /\
  - (2 ^ 63 - 64) <= f_length {| f_alphabet := DefaultAlphabet; f_length := -1;
                                 f_encode := 7; f_decode := []; f_benchmark := 0;
                                 f_random := false |} < 0 /\
  dispatch {| f_alphabet := DefaultAlphabet; f_length := -1;
              f_encode := 7; f_decode := []; f_benchmark := 0;
              f_random := false |}
  = RunEncode (Panic MakesliceLen).
Proof.
  assert (Hv : valid (cli_encoder {| f_alphabet := DefaultAlphabet; f_length := -1;
                        f_encode := 7; f_decode := []; f_benchmark := 0;
                        f_random := false |})) by reflexivity.
  assert (He : 0 < f_encode {| f_alphabet := DefaultAlphabet; f_length := -1;
                  f_encode := 7; f_decode := []; f_benchmark := 0;
                  f_random := false |} < 2 ^ 63) by (simpl; lia).
  assert (HL : - (2 ^ 63 - 64) <= f_length {| f_alphabet := DefaultAlphabet;
                  f_length := -1; f_encode := 7; f_decode := [];
                  f_benchmark := 0; f_random := false |} < 0) by (simpl; lia).
  repeat (split; [assumption|]).
  exact (dispatch_negative_length _ Hv He HL).
Defined.
